(** * UART-DMA logger: circular send buffer and transfer controller

    A shallow embedding of [Logger] (src/logger.h, src/logger.cpp): the
    circular send buffer filled by [enqueue] and drained by
    [startTransfer] / [transferCompletedCallback] through the HAL's DMA
    transmit call.

    Conventions of the embedding.
    - A [uint16_t] is a [Z] in [0, 65536); every place where the code stores
      a computed value into a 16-bit object is written with [to_u16].
      Operands are promoted to [int] before arithmetic, as C does, so only
      stores, returns and argument passing truncate.
    - The logger object is a record; a member function takes the record and
      returns the updated record together with the HAL calls it made, in
      order.
    - [m_send_buffer] is a list of bytes. An access at an index outside
      [0, SEND_BUFFER_SIZE) has no defined behaviour in C: [store] returns
      [None] there, and so does every function that performs such a store.
    - [isInISR()] reads the IPSR register: it is an input ([in_isr]) of the
      functions that consult it.
    - The exclusive load/store pairs (LDREXH/STREXH) are modelled for a call
      that is not preempted: the exclusive store succeeds at once, so each
      retry loop runs its body exactly once. *)

From Stdlib Require Import ZArith Lia List Bool.
From Stdlib Require Import Init.Byte.
From Stdlib Require Strings.Byte.
From stdpp Require Import base option list.

Local Open Scope Z_scope.

Ltac Zify.zify_post_hook ::= Z.to_euclidean_division_equations.

(** Splits a conjunction into its conjuncts, and nothing else. *)
Ltac conjuncts := repeat match goal with |- _ /\ _ => split end.

(** ** Machine integers *)

Definition to_u16 (x : Z) : Z := x mod 65536.

Definition is_u16 (x : Z) : Prop := 0 <= x < 65536.

(** [ATOMIC_INCH(VAL)]: [while (__STREXH(__LDREXH(&VAL) + 1, &VAL));] *)
Definition ATOMIC_INCH (val : Z) : Z := to_u16 (val + 1).

(** [ATOMIC_DECH(VAL)]: [while (__STREXH(__LDREXH(&VAL) - 1, &VAL));] *)
Definition ATOMIC_DECH (val : Z) : Z := to_u16 (val - 1).

(** ** The logger object *)

Definition SEND_BUFFER_SIZE : Z := 512.
Definition SINGLE_MSG_SIZE : Z := 256.

Record Logger : Type := mkLogger {
  m_read_pos : Z;
  m_new_read_pos : Z;
  m_send_buffer : list byte;
  m_is_sending : bool;
  m_write_pos : Z;
  m_enqueue_guard : Z;
  m_missed_count : Z;
  m_uart : Z
}.

Definition set_read_pos (v : Z) (s : Logger) : Logger :=
  mkLogger v (m_new_read_pos s) (m_send_buffer s) (m_is_sending s)
           (m_write_pos s) (m_enqueue_guard s) (m_missed_count s) (m_uart s).

Definition set_new_read_pos (v : Z) (s : Logger) : Logger :=
  mkLogger (m_read_pos s) v (m_send_buffer s) (m_is_sending s)
           (m_write_pos s) (m_enqueue_guard s) (m_missed_count s) (m_uart s).

Definition set_send_buffer (v : list byte) (s : Logger) : Logger :=
  mkLogger (m_read_pos s) (m_new_read_pos s) v (m_is_sending s)
           (m_write_pos s) (m_enqueue_guard s) (m_missed_count s) (m_uart s).

Definition set_is_sending (v : bool) (s : Logger) : Logger :=
  mkLogger (m_read_pos s) (m_new_read_pos s) (m_send_buffer s) v
           (m_write_pos s) (m_enqueue_guard s) (m_missed_count s) (m_uart s).

Definition set_write_pos (v : Z) (s : Logger) : Logger :=
  mkLogger (m_read_pos s) (m_new_read_pos s) (m_send_buffer s) (m_is_sending s)
           v (m_enqueue_guard s) (m_missed_count s) (m_uart s).

Definition set_enqueue_guard (v : Z) (s : Logger) : Logger :=
  mkLogger (m_read_pos s) (m_new_read_pos s) (m_send_buffer s) (m_is_sending s)
           (m_write_pos s) v (m_missed_count s) (m_uart s).

Definition set_missed_count (v : Z) (s : Logger) : Logger :=
  mkLogger (m_read_pos s) (m_new_read_pos s) (m_send_buffer s) (m_is_sending s)
           (m_write_pos s) (m_enqueue_guard s) v (m_uart s).

Definition set_uart (v : Z) (s : Logger) : Logger :=
  mkLogger (m_read_pos s) (m_new_read_pos s) (m_send_buffer s) (m_is_sending s)
           (m_write_pos s) (m_enqueue_guard s) (m_missed_count s) v.

(** Calls into the HAL, in the order the code makes them. [pData] is the
    index into [m_send_buffer] of the first byte handed to the DMA. *)
Inductive HalCall : Type :=
  | HAL_UART_RegisterCallback (huart : Z)
  | HAL_UART_Transmit_DMA (huart : Z) (pData : Z) (Size : Z)
  | HAL_DMA_DISABLE_IT_HT (huart : Z).

(** [Logger logger;] has static storage: every member without an
    initializer starts at zero. *)
Definition logger0 : Logger :=
  mkLogger 0 0 (replicate (Z.to_nat SEND_BUFFER_SIZE) x00) false 0 0 0 0.

(** [Logger::init] *)
Definition init (huart : Z) (s : Logger) : Logger * list HalCall :=
  (set_uart huart s, [HAL_UART_RegisterCallback huart]).

(** [Logger::getMissedCount] *)
Definition getMissedCount (s : Logger) : Z := m_missed_count s.

(** [Logger::availableSpace]: the operands are promoted to [int], the
    subtraction of [1U] is unsigned, and the result is returned as
    [uint16_t]. *)
Definition availableSpace (s : Logger) (write_pos : Z) : Z :=
  if m_read_pos s <=? write_pos
  then to_u16 (SEND_BUFFER_SIZE - (write_pos - m_read_pos s) - 1)
  else to_u16 (m_read_pos s - write_pos - 1).

(** [Logger::advancePos] *)
Definition advancePos (pos step : Z) : Z :=
  to_u16 ((pos + step) mod SEND_BUFFER_SIZE).

(** ** Copying into the buffer *)

(** [str[i]]: the caller's buffer; a position past the end of the list
    reads as 0. *)
Definition str_at (str : list byte) (i : Z) : byte :=
  default x00 (str !! Z.to_nat i).

(** [m_send_buffer[idx] = c] *)
Definition store (buf : list byte) (idx : Z) (c : byte) : option (list byte) :=
  if (0 <=? idx) && (idx <? SEND_BUFFER_SIZE)
  then Some (<[Z.to_nat idx := c]> buf)
  else None.

(** [n] iterations of the body [m_send_buffer[write_pos++] = str[i++];]
    shared by the three copy loops. The result is the buffer and the final
    values of [write_pos] and [i]. *)
Fixpoint copy_loop (n : nat) (str buf : list byte) (write_pos i : Z)
  : option (list byte * Z * Z) :=
  match n with
  | O => Some (buf, write_pos, i)
  | S n' =>
      buf' ← store buf write_pos (str_at str i);
      copy_loop n' str buf' (to_u16 (write_pos + 1)) (to_u16 (i + 1))
  end.

(** A loop [while (i < bound)] whose body increments [i] once runs
    [bound - i] times, and not at all when [bound <= i]. *)
Definition copy_while (bound : Z) (str buf : list byte) (write_pos i : Z)
  : option (list byte * Z * Z) :=
  copy_loop (Z.to_nat (bound - i)) str buf write_pos i.

(** The body of [if (write_pos != new_write_pos)] in [enqueue]. *)
Definition enqueue_copy (str : list byte) (length : Z) (buf : list byte)
    (write_pos new_write_pos : Z) : option (list byte) :=
  if write_pos <? new_write_pos then
    '(buf1, _, _) ← copy_while length str buf write_pos 0;
    Some buf1
  else
    let till_end_count := to_u16 (SEND_BUFFER_SIZE - write_pos) in
    '(buf1, _, i1) ← copy_while till_end_count str buf write_pos 0;
    '(buf2, _, _) ← copy_while length str buf1 0 i1;
    Some buf2.

(** ** Transfer controller *)

(** [Logger::startTransfer]. [Size] is a [uint16_t] parameter of
    [HAL_UART_Transmit_DMA]. *)
Definition startTransfer (s : Logger) : Logger * list HalCall :=
  let send_pos := m_write_pos s in
  if negb (send_pos =? m_read_pos s) && (m_enqueue_guard s =? 0) then
    let s1 := set_is_sending true s in
    if m_read_pos s1 <? send_pos then
      let s2 := set_new_read_pos send_pos s1 in
      (s2, [HAL_UART_Transmit_DMA (m_uart s2) (m_read_pos s2)
                                  (to_u16 (send_pos - m_read_pos s2));
            HAL_DMA_DISABLE_IT_HT (m_uart s2)])
    else
      let s2 := set_new_read_pos 0 s1 in
      (s2, [HAL_UART_Transmit_DMA (m_uart s2) (m_read_pos s2)
                                  (to_u16 (SEND_BUFFER_SIZE - m_read_pos s2));
            HAL_DMA_DISABLE_IT_HT (m_uart s2)])
  else
    (set_is_sending false s, []).

(** [Logger::process] *)
Definition process (in_isr : bool) (s : Logger) : Logger * list HalCall :=
  if m_is_sending s || in_isr then (s, []) else startTransfer s.

(** [Logger::transferCompletedCallback] *)
Definition transferCompletedCallback (huart : Z) (s : Logger)
  : Logger * list HalCall :=
  if huart =? m_uart s
  then startTransfer (set_read_pos (m_new_read_pos s) s)
  else (s, []).

(** [Logger::enqueue] *)
Definition enqueue (in_isr : bool) (str : list byte) (length : Z) (s : Logger)
  : option (Logger * list HalCall) :=
  let s1 := set_enqueue_guard (ATOMIC_INCH (m_enqueue_guard s)) s in
  let write_pos := m_write_pos s1 in
  let new_write_pos :=
    if length <=? availableSpace s1 write_pos
    then advancePos write_pos length
    else write_pos in
  let s2 := set_write_pos new_write_pos s1 in
  s3 ← (if negb (write_pos =? new_write_pos) then
          buf ← enqueue_copy str length (m_send_buffer s2) write_pos new_write_pos;
          Some (set_send_buffer buf s2)
        else
          Some (set_missed_count (ATOMIC_INCH (m_missed_count s2)) s2));
  let s4 := set_enqueue_guard (ATOMIC_DECH (m_enqueue_guard s3)) s3 in
  Some (process in_isr s4).

(** ** Runs of the logger *)

(** One entry into the logger's code: a call of [enqueue] or [process]
    from a context that is ([in_isr = true]) or is not an interrupt
    handler, or the UART's transmit-complete interrupt for handle
    [huart]. *)
Inductive event : Type :=
  | EvEnqueue (in_isr : bool) (str : list byte) (length : Z)
  | EvProcess (in_isr : bool)
  | EvTxComplete (huart : Z).

Definition step (s : Logger) (ev : event) : option (Logger * list HalCall) :=
  match ev with
  | EvEnqueue in_isr str length => enqueue in_isr str length s
  | EvProcess in_isr => Some (process in_isr s)
  | EvTxComplete huart => Some (transferCompletedCallback huart s)
  end.

(** The bytes a HAL call hands to the transmitter: for a DMA transmit
    request, the [Size] bytes of the buffer from index [pData] on. *)
Definition call_bytes (buf : list byte) (c : HalCall) : list byte :=
  match c with
  | HAL_UART_Transmit_DMA _ pData Size =>
      take (Z.to_nat Size) (drop (Z.to_nat pData) buf)
  | _ => []
  end.

Definition calls_bytes (buf : list byte) (cs : list HalCall) : list byte :=
  concat (map (call_bytes buf) cs).

(** Runs the events in order; returns the final state and the byte stream
    requested for transmission along the way. *)
Fixpoint run (s : Logger) (evs : list event) : option (Logger * list byte) :=
  match evs with
  | [] => Some (s, [])
  | ev :: rest =>
      '(s1, cs) ← step s ev;
      '(s2, out) ← run s1 rest;
      Some (s2, calls_bytes (m_send_buffer s1) cs ++ out)
  end.

(** The message an [enqueue(str, length)] call submits: [str[0..length)]. *)
Definition msg_bytes (str : list byte) (length : Z) : list byte :=
  map (fun i => str_at str (Z.of_nat i)) (seq 0 (Z.to_nat length)).

Definition event_msg (ev : event) : list byte :=
  match ev with
  | EvEnqueue _ str length => msg_bytes str length
  | _ => []
  end.

Definition messages (evs : list event) : list byte :=
  concat (map event_msg evs).

(** Every [enqueue] of the run is called with a length that is at most the
    available space at the time of the call. *)
Definition event_fits (s : Logger) (ev : event) : bool :=
  match ev with
  | EvEnqueue _ _ length =>
      (0 <=? length) && (length <=? availableSpace s (m_write_pos s))
  | _ => true
  end.

Fixpoint enqueues_fit (s : Logger) (evs : list event) : bool :=
  match evs with
  | [] => true
  | ev :: rest =>
      event_fits s ev &&
      match step s ev with
      | Some (s1, _) => enqueues_fit s1 rest
      | None => true
      end
  end.

(** Events that empty the buffer: one [process] call from the main loop and
    the completion interrupts of the transfers it chains. *)
Definition drain (s : Logger) : list event :=
  [EvProcess false; EvTxComplete (m_uart s); EvTxComplete (m_uart s);
   EvTxComplete (m_uart s)].

(** The [length] argument of [enqueue] is a [uint16_t]. *)
Definition event_typed (ev : event) : Prop :=
  match ev with
  | EvEnqueue _ _ length => is_u16 length
  | _ => True
  end.

(** States reached from the initialized logger, with the states visited
    before, most recent first. *)
Inductive reached (huart : Z) : list Logger -> Logger -> Prop :=
  | reached_init : reached huart [] (fst (init huart logger0))
  | reached_step hist s ev s' cs :
      reached huart hist s ->
      event_typed ev ->
      step s ev = Some (s', cs) ->
      reached huart (s :: hist) s'.

(** ** Ring arithmetic used in the statements *)

(** Number of bytes from [a] forward to [b] around the ring. *)
Definition ring_dist (a b : Z) : Z := (b - a) mod SEND_BUFFER_SIZE.

Definition byte_at (buf : list byte) (idx : Z) : byte :=
  default x00 (buf !! Z.to_nat idx).

(** The [n] bytes of the ring starting at [pos], wrapping at the end of
    storage. *)
Definition ring_read (buf : list byte) (pos : Z) (n : nat) : list byte :=
  map (fun i => byte_at buf ((pos + Z.of_nat i) mod SEND_BUFFER_SIZE)) (seq 0 n).

(** Bytes enqueued and not yet handed to the transmitter. *)
Definition pending (s : Logger) : list byte :=
  ring_read (m_send_buffer s) (m_new_read_pos s)
            (Z.to_nat (ring_dist (m_new_read_pos s) (m_write_pos s))).

(** [data] written into [buf] from index [pos] on, without wrapping. *)
Definition linear_copy (buf : list byte) (pos : Z) (data : list byte) : list byte :=
  take (Z.to_nat pos) buf ++ data ++ drop (Z.to_nat pos + length data) buf.

(** [data] written into the ring from index [pos] on: one linear copy when
    the destination ends at or before the end of storage, otherwise one
    linear copy up to the end of storage and one from index 0. *)
Definition ring_copy (buf : list byte) (pos : Z) (data : list byte) : list byte :=
  let k := Z.to_nat (SEND_BUFFER_SIZE - pos) in
  if pos + Z.of_nat (length data) <=? SEND_BUFFER_SIZE
  then linear_copy buf pos data
  else linear_copy (linear_copy buf pos (take k data)) 0 (drop k data).

(** The cursors index the buffer and the counters are 16-bit values. *)
Record wf (s : Logger) : Prop := mkWf {
  wf_read_pos : 0 <= m_read_pos s < SEND_BUFFER_SIZE;
  wf_new_read_pos : 0 <= m_new_read_pos s < SEND_BUFFER_SIZE;
  wf_write_pos : 0 <= m_write_pos s < SEND_BUFFER_SIZE;
  wf_send_buffer : Z.of_nat (length (m_send_buffer s)) = SEND_BUFFER_SIZE;
  wf_enqueue_guard : is_u16 (m_enqueue_guard s);
  wf_missed_count : is_u16 (m_missed_count s)
}.

(** What holds between two entries into the logger's code: no enqueue is
    in progress, the pending read cursor lies between the read cursor and
    the write cursor, and it differs from the read cursor only while a
    transfer is in progress. *)
Record quiescent (s : Logger) : Prop := mkQuiescent {
  q_wf : wf s;
  q_guard : m_enqueue_guard s = 0;
  q_between :
    ring_dist (m_read_pos s) (m_new_read_pos s) <=
    ring_dist (m_read_pos s) (m_write_pos s);
  q_idle : m_is_sending s = false -> m_new_read_pos s = m_read_pos s
}.

(** How many completion interrupts are still needed before the logger is
    idle with everything handed to the transmitter. *)
Definition stage (s : Logger) : nat :=
  if m_new_read_pos s =? m_write_pos s
  then (if m_is_sending s then 1%nat else 0%nat)
  else if m_new_read_pos s <? m_write_pos s then 2%nat else 3%nat.

(** ** Accepted and rejected messages of a run *)

(** An [enqueue] call is rejected, and counted as a miss, when its length
    is zero or exceeds the available space. *)
Definition event_rejected (s : Logger) (ev : event) : bool :=
  match ev with
  | EvEnqueue _ _ length =>
      (length =? 0) || (availableSpace s (m_write_pos s) <? length)
  | _ => false
  end.

(** The messages of the run that found room, in call order. *)
Fixpoint accepted (s : Logger) (evs : list event) : list byte :=
  match evs with
  | [] => []
  | ev :: rest =>
      (if event_fits s ev then event_msg ev else []) ++
      match step s ev with
      | Some (s1, _) => accepted s1 rest
      | None => []
      end
  end.

(** The number of rejected [enqueue] calls of the run. *)
Fixpoint rejected (s : Logger) (evs : list event) : Z :=
  match evs with
  | [] => 0
  | ev :: rest =>
      (if event_rejected s ev then 1 else 0) +
      match step s ev with
      | Some (s1, _) => rejected s1 rest
      | None => 0
      end
  end.

(** A HAL call made for UART [huart] whose DMA range, if it has one, is a
    non-empty range inside [m_send_buffer]. *)
Definition dma_in_bounds (huart : Z) (c : HalCall) : Prop :=
  match c with
  | HAL_UART_Transmit_DMA h pData Size =>
      h = huart /\ 0 <= pData /\ 0 < Size /\ pData + Size <= SEND_BUFFER_SIZE
  | HAL_DMA_DISABLE_IT_HT h => h = huart
  | HAL_UART_RegisterCallback h => h = huart
  end.

(** ** Message formatting

    The formatters write into a [char] array through a pointer. The array
    is a list of bytes ([mem]) and a pointer into it is an index ([buf],
    [pos], [des]). An access outside the array has no defined behaviour in
    C: [poke] and [peek] return [None] there, and so does every formatter
    that performs such an access. The [float] and [double] overloads of
    [formatSingle] and [formatDouble] compute in floating point and are not
    part of the embedding. *)

Definition to_u8 (x : Z) : Z := x mod 256.

Definition to_u32 (x : Z) : Z := x mod 4294967296.

(** Conversion of an integer value to [char], and the value of a [char]. *)
Definition char_of (z : Z) : byte :=
  default x00 (Strings.Byte.of_N (Z.to_N (z mod 256))).

Definition char_code (c : byte) : Z := Z.of_N (Strings.Byte.to_N c).

(** [mem[idx] = c] *)
Definition poke (mem : list byte) (idx : Z) (c : byte) : option (list byte) :=
  if (0 <=? idx) && (idx <? Z.of_nat (length mem))
  then Some (<[Z.to_nat idx := c]> mem)
  else None.

(** [mem[idx]] *)
Definition peek (mem : list byte) (idx : Z) : option byte :=
  if 0 <=? idx then mem !! Z.to_nat idx else None.

(** The loop [do { buf[i++] = val % 10 + '0'; val /= 10; } while (val);] of
    [formatUnsignedNum]; [i] is a [uint8_t]. The result is the array and
    the final [i]. The fuel bounds the number of rounds. *)
Fixpoint digit_loop (fuel : nat) (mem : list byte) (buf i val : Z)
  : option (list byte * Z) :=
  match fuel with
  | O => None
  | S fuel' =>
      mem' ← poke mem (buf + i) (char_of (val mod 10 + 48));
      let i' := to_u8 (i + 1) in
      let val' := val / 10 in
      if val' =? 0 then Some (mem', i') else digit_loop fuel' mem' buf i' val'
  end.

(** The loop [while (start < end) { temp = buf[start];
    buf[start++] = buf[end]; buf[end--] = temp; }] of [formatUnsignedNum];
    [start] and [end] are [uint8_t]. *)
Fixpoint swap_loop (fuel : nat) (mem : list byte) (buf start last : Z)
  : option (list byte) :=
  if start <? last then
    match fuel with
    | O => None
    | S fuel' =>
        temp ← peek mem (buf + start);
        c ← peek mem (buf + last);
        mem1 ← poke mem (buf + start) c;
        mem2 ← poke mem1 (buf + last) temp;
        swap_loop fuel' mem2 buf (to_u8 (start + 1)) (to_u8 (last - 1))
    end
  else Some mem.

(** [Logger::formatUnsignedNum]. [val] is a [uint32_t]: it has at most ten
    decimal digits, so ten rounds of the first loop are enough, and the
    second loop runs fewer than [i] rounds. *)
Definition formatUnsignedNum (mem : list byte) (buf val : Z)
  : option (list byte * Z) :=
  '(mem1, i) ← digit_loop 10 mem buf 0 val;
  mem2 ← swap_loop (Z.to_nat i) mem1 buf 0 (to_u8 (i - 1));
  Some (mem2, i).

(** [Logger::formatSignedNum]. [val] is an [int32_t]; [-val] overflows for
    the smallest value, which has no defined behaviour in C: the function
    returns [None] there. *)
Definition formatSignedNum (mem : list byte) (buf val : Z)
  : option (list byte * Z) :=
  if val <? 0 then
    if val =? -2147483648 then None
    else
      mem1 ← poke mem buf x2d;
      '(mem2, length) ← formatUnsignedNum mem1 (buf + 1) (to_u32 (- val));
      Some (mem2, to_u16 (buf + 1 + length - buf))
  else
    '(mem2, length) ← formatUnsignedNum mem buf (to_u32 val);
    Some (mem2, to_u16 (buf + length - buf)).

(** The loop of [_strcpy]: [while (src[i] != 0) { des[i++] = src[i]; }],
    with [src[i]] read before [i] is incremented (the right operand of an
    assignment is evaluated first); [i] is a [uint16_t]. *)
Fixpoint strcpy_loop (fuel : nat) (src mem : list byte) (des i : Z)
  : option (list byte * Z) :=
  if Strings.Byte.eqb (str_at src i) x00 then Some (mem, i)
  else
    match fuel with
    | O => None
    | S fuel' =>
        mem' ← poke mem (des + i) (str_at src i);
        strcpy_loop fuel' src mem' des (to_u16 (i + 1))
    end.

(** [Logger::_strcpy]. The source is the list [src] followed by zeros, so
    the loop stops at the first zero byte of [src] or at its end; it runs
    at most [length src] rounds unless [i] wraps around, in which case it
    never stops. *)
Definition _strcpy (mem : list byte) (des : Z) (src : list byte)
  : option (list byte * Z) :=
  strcpy_loop (length src) src mem des 0.

(** One argument of [log]: the overloads of [formatSingle] for the signed
    integer types (all converted to [int32_t]), the unsigned integer types
    (all converted to [uint32_t]), [const char*] and [char]. *)
Inductive Arg : Type :=
  | ArgSigned (value : Z)
  | ArgUnsigned (value : Z)
  | ArgString (str : list byte)
  | ArgChar (cha : byte).

(** [Logger::formatSingle] *)
Definition formatSingle (mem : list byte) (pos : Z) (a : Arg)
  : option (list byte * Z) :=
  match a with
  | ArgSigned value => formatSignedNum mem pos value
  | ArgUnsigned value => formatUnsignedNum mem pos value
  | ArgString str => _strcpy mem pos str
  | ArgChar cha => mem' ← poke mem pos cha; Some (mem', 1)
  end.

(** [Logger::formatMulti], the variadic recursion over the arguments. *)
Fixpoint formatMulti (mem : list byte) (pos : Z) (args : list Arg)
  : option (list byte * Z) :=
  match args with
  | [] => Some (mem, 0)
  | first :: rest =>
      '(mem1, length) ← formatSingle mem pos first;
      '(mem2, rest_length) ← formatMulti mem1 (pos + length) rest;
      Some (mem2, to_u16 (length + rest_length))
  end.

(** [Logger::log]. [line_buffer] is the local array of [SINGLE_MSG_SIZE]
    bytes with whatever contents it has on entry. *)
Definition log (in_isr : bool) (line_buffer : list byte) (args : list Arg)
    (s : Logger) : option (Logger * list HalCall) :=
  '(line_buffer1, length) ← formatMulti line_buffer 0 args;
  enqueue in_isr line_buffer1 length s.

(** The headers of the log functions: the empty string, ["Info: "],
    ["Warning: "] and ["Error: "]. *)
Definition logln_str : list byte := [].
Definition info_str : list byte := [x49; x6e; x66; x6f; x3a; x20].
Definition warning_str : list byte :=
  [x57; x61; x72; x6e; x69; x6e; x67; x3a; x20].
Definition error_str : list byte := [x45; x72; x72; x6f; x72; x3a; x20].

(** [assert_param(expr)] of the HAL: nothing unless [USE_FULL_ASSERT] is
    defined ([full_assert]), in which case a false [expr] calls
    [assert_failed], taken here as not returning. *)
Definition assert_param (full_assert : bool) (expr : bool) : option unit :=
  if full_assert && negb expr then None else Some tt.

(** The body that [GENERATE_FUNC(NAME)] gives [logln], [info], [warning]
    and [error], with [NAME_str] as [header]. *)
Definition GENERATE_FUNC (header : list byte) (full_assert in_isr : bool)
    (line_buffer : list byte) (args : list Arg) (s : Logger)
  : option (Logger * list HalCall) :=
  '(line_buffer1, total_length) ← _strcpy line_buffer 0 header;
  '(line_buffer2, length) ← formatMulti line_buffer1 (0 + total_length) args;
  let total_length := to_u16 (total_length + length) in
  line_buffer3 ← poke line_buffer2 total_length x0a;
  let total_length := to_u16 (total_length + 1) in
  _ ← assert_param full_assert (total_length <=? SINGLE_MSG_SIZE);
  enqueue in_isr line_buffer3 total_length s.

Definition logln := GENERATE_FUNC logln_str.
Definition info := GENERATE_FUNC info_str.
Definition warning := GENERATE_FUNC warning_str.
Definition error := GENERATE_FUNC error_str.

(** *** Reference text of the formatters *)

(** The decimal digits of [val], least significant first. *)
Fixpoint rev_digits (fuel : nat) (val : Z) : list Z :=
  match fuel with
  | O => []
  | S fuel' =>
      val mod 10 :: (if val / 10 =? 0 then [] else rev_digits fuel' (val / 10))
  end.

(** The decimal text of an unsigned 32-bit value. *)
Definition decimal (val : Z) : list byte :=
  map (fun d => char_of (d + 48)) (rev (rev_digits 10 val)).

(** The number a decimal text denotes. *)
Definition parse_decimal (text : list byte) : Z :=
  fold_left (fun acc c => 10 * acc + (char_code c - 48)) text 0.

Definition is_digit (c : byte) : Prop := 48 <= char_code c <= 57.

(** The text of a signed 32-bit value: a minus sign for a negative one. *)
Definition signed_decimal (val : Z) : list byte :=
  if val <? 0 then x2d :: decimal (- val) else decimal val.

(** The number a signed decimal text denotes. *)
Definition parse_signed (text : list byte) : Z :=
  match text with
  | c :: digits =>
      if Strings.Byte.eqb c x2d then - parse_decimal digits
      else parse_decimal text
  | [] => 0
  end.

(** The bytes of a C string: those before its first zero byte. *)
Fixpoint c_string (src : list byte) : list byte :=
  match src with
  | [] => []
  | c :: rest => if Strings.Byte.eqb c x00 then [] else c :: c_string rest
  end.

Definition render_arg (a : Arg) : list byte :=
  match a with
  | ArgSigned value => signed_decimal value
  | ArgUnsigned value => decimal value
  | ArgString str => c_string str
  | ArgChar cha => [cha]
  end.

Definition render (args : list Arg) : list byte :=
  concat (map render_arg args).

(** The values an argument can hold: an [int32_t] other than the smallest
    one, a [uint32_t], a string shorter than 65536 bytes, any [char]. *)
Definition arg_ok (a : Arg) : Prop :=
  match a with
  | ArgSigned value => -2147483648 < value < 2147483648
  | ArgUnsigned value => 0 <= value < 4294967296
  | ArgString str => Z.of_nat (length (c_string str)) < 65536
  | ArgChar _ => True
  end.

(** A [line_buffer] left over from earlier calls, and arguments for it. *)
Definition stale_line_buffer : list byte :=
  replicate (Z.to_nat SINGLE_MSG_SIZE) xff.

Definition example_args : list Arg :=
  [ArgString [x54; x3d; x00; x3f]; ArgSigned (-40); ArgChar x2f;
   ArgUnsigned 4294967295].

(** ** Concrete states used as examples *)

(** The initialized logger (UART handle 1). *)
Definition idle_logger : Logger := fst (init 1 logger0).

(** A full ring (511 bytes queued from interrupt handlers, nothing sent yet)
    whose miss counter has reached its largest value. *)
Definition full_logger : Logger :=
  mkLogger 0 0 (replicate 511 x41 ++ [x00]) false 511 0 65535 1.

(** Events that lead the idle logger to [full_logger]: 511 bytes enqueued
    from interrupt handlers, then 65535 one-byte messages, all dropped. *)
Definition fill_then_drop : list event :=
  [EvEnqueue true (replicate 255 x41) 255;
   EvEnqueue true (replicate 255 x41) 255;
   EvEnqueue true [x41] 1]
  ++ replicate (Z.to_nat 65535) (EvEnqueue true [x42] 1).

(** An empty ring whose miss counter has reached its largest value. *)
Definition empty_logger_max_missed : Logger :=
  set_missed_count 65535 idle_logger.

(** Events that lead the idle logger to [empty_logger_max_missed]: 65535
    zero-length messages. *)
Definition zero_length_calls : list event :=
  replicate (Z.to_nat 65535) (EvEnqueue true [] 0).

(** A ring whose queued bytes wrap: [read_pos = 500], [write_pos = 3]. *)
Definition wrapped_logger : Logger :=
  mkLogger 500 500 (replicate (Z.to_nat SEND_BUFFER_SIZE) x41) false 3 0 0 1.

(** A ring with ten bytes queued just before the end of storage:
    [read_pos = 500], [write_pos = 510]. *)
Definition tail_logger : Logger :=
  mkLogger 500 500 (replicate (Z.to_nat SEND_BUFFER_SIZE) x41) false 510 0 0 1.

(** Three 200-byte messages, the first from the main loop and the others
    from interrupt handlers, with the completion of the first transfer in
    between; the third message wraps around the end of storage. *)
Definition example_events : list event :=
  [EvEnqueue false (replicate 200 x41) 200;
   EvEnqueue true (replicate 200 x42) 200;
   EvTxComplete 1;
   EvEnqueue true (replicate 200 x43) 200].

(** The idle logger after [enqueue("B", 1)] from the main loop, and after
    the completion interrupt that follows. *)
Definition one_byte_sending : Logger :=
  mkLogger 0 1 (x42 :: replicate 511 x00) true 1 0 0 1.

Definition one_byte_sent : Logger :=
  mkLogger 1 1 (x42 :: replicate 511 x00) false 1 0 0 1.

(** * Properties *)

(** ** 16-bit arithmetic *)

Lemma to_u16_id x : is_u16 x -> to_u16 x = x.
Proof. unfold is_u16, to_u16. lia. Qed.

Lemma to_u16_range x : is_u16 (to_u16 x).
Proof. unfold is_u16, to_u16. lia. Qed.

Lemma guard_inc_dec g : is_u16 g -> ATOMIC_DECH (ATOMIC_INCH g) = g.
Proof. unfold ATOMIC_DECH, ATOMIC_INCH, to_u16, is_u16. lia. Qed.

Lemma availableSpace_read_pos s wp :
  availableSpace s wp =
  if m_read_pos s <=? wp
  then to_u16 (SEND_BUFFER_SIZE - (wp - m_read_pos s) - 1)
  else to_u16 (m_read_pos s - wp - 1).
Proof. reflexivity. Qed.

Lemma availableSpace_ring s wp :
  0 <= m_read_pos s < SEND_BUFFER_SIZE ->
  0 <= wp < SEND_BUFFER_SIZE ->
  availableSpace s wp = SEND_BUFFER_SIZE - ring_dist (m_read_pos s) wp - 1.
Proof.
  unfold availableSpace, ring_dist, to_u16, SEND_BUFFER_SIZE. intros Hr Hw.
  destruct (Z.leb_spec (m_read_pos s) wp); lia.
Qed.

Lemma availableSpace_nonneg s wp : 0 <= availableSpace s wp.
Proof.
  unfold availableSpace, to_u16.
  destruct (m_read_pos s <=? wp); lia.
Qed.

Lemma advancePos_mod pos step :
  advancePos pos step = (pos + step) mod SEND_BUFFER_SIZE.
Proof. unfold advancePos, to_u16, SEND_BUFFER_SIZE. lia. Qed.

(** ** The transfer controller leaves the ring's contents alone *)

Lemma startTransfer_fields s :
  let s' := fst (startTransfer s) in
  m_read_pos s' = m_read_pos s /\ m_write_pos s' = m_write_pos s /\
  m_send_buffer s' = m_send_buffer s /\ m_missed_count s' = m_missed_count s /\
  m_enqueue_guard s' = m_enqueue_guard s /\ m_uart s' = m_uart s.
Proof.
  unfold startTransfer.
  destruct (negb (m_write_pos s =? m_read_pos s) && (m_enqueue_guard s =? 0)); simpl.
  - destruct (m_read_pos s <? m_write_pos s); simpl; auto 10.
  - auto 10.
Qed.

Lemma process_fields in_isr s :
  let s' := fst (process in_isr s) in
  m_read_pos s' = m_read_pos s /\ m_write_pos s' = m_write_pos s /\
  m_send_buffer s' = m_send_buffer s /\ m_missed_count s' = m_missed_count s /\
  m_enqueue_guard s' = m_enqueue_guard s /\ m_uart s' = m_uart s.
Proof.
  unfold process. destruct (m_is_sending s || in_isr); simpl.
  - auto 10.
  - apply startTransfer_fields.
Qed.

Lemma process_idle in_isr s :
  m_is_sending s || in_isr = true -> process in_isr s = (s, []).
Proof. unfold process. intros ->. reflexivity. Qed.

(** ** The two outcomes of the reservation *)

Lemma enqueue_dropped in_isr str len s :
  availableSpace s (m_write_pos s) < len ->
  enqueue in_isr str len s =
  Some (process in_isr
          (set_enqueue_guard (ATOMIC_DECH (ATOMIC_INCH (m_enqueue_guard s)))
             (set_missed_count (ATOMIC_INCH (m_missed_count s)) s))).
Proof.
  intros Hlt. unfold enqueue.
  change (availableSpace (set_enqueue_guard _ s) _)
    with (availableSpace s (m_write_pos s)).
  destruct (Z.leb_spec len (availableSpace s (m_write_pos s))); [lia|].
  cbn [m_write_pos set_enqueue_guard].
  rewrite Z.eqb_refl. reflexivity.
Qed.

(** ** The copy loops *)

Lemma store_in_range buf idx c :
  0 <= idx < SEND_BUFFER_SIZE ->
  store buf idx c = Some (<[Z.to_nat idx := c]> buf).
Proof.
  intros H. unfold store.
  destruct (Z.leb_spec 0 idx); [|lia].
  destruct (Z.ltb_spec idx SEND_BUFFER_SIZE); [|lia].
  reflexivity.
Qed.

Lemma copy_loop_spec n : forall str buf wp i,
  0 <= wp -> wp + Z.of_nat n <= SEND_BUFFER_SIZE ->
  Z.of_nat (length buf) = SEND_BUFFER_SIZE ->
  0 <= i -> i + Z.of_nat n < 65536 ->
  exists buf',
    copy_loop n str buf wp i = Some (buf', wp + Z.of_nat n, i + Z.of_nat n) /\
    length buf' = length buf /\
    forall j : nat,
      buf' !! j =
      if decide (wp <= Z.of_nat j < wp + Z.of_nat n)
      then Some (str_at str (i + (Z.of_nat j - wp)))
      else buf !! j.
Proof.
  induction n as [|n IH]; intros str buf wp i Hwp Hend Hlen Hi Hiend.
  - exists buf. cbn [copy_loop]. repeat split.
    + do 2 f_equal; [f_equal|]; lia.
    + intros j. destruct (decide _); [lia|reflexivity].
  - cbn [copy_loop]. rewrite store_in_range by lia. cbn [mbind option_bind].
    assert (Hw1 : to_u16 (wp + 1) = wp + 1)
      by (apply to_u16_id; unfold is_u16, SEND_BUFFER_SIZE in *; lia).
    assert (Hi1 : to_u16 (i + 1) = i + 1)
      by (apply to_u16_id; unfold is_u16; lia).
    rewrite Hw1, Hi1.
    destruct (IH str (<[Z.to_nat wp := str_at str i]> buf) (wp + 1) (i + 1))
      as (buf' & Hrun & Hl & Hlook);
      try lia; [rewrite length_insert; lia|].
    exists buf'. rewrite Hrun. repeat split.
    + do 2 f_equal; [f_equal|]; lia.
    + rewrite Hl. apply length_insert.
    + intros j. rewrite Hlook.
      destruct (decide (wp + 1 <= Z.of_nat j < wp + 1 + Z.of_nat n)) as [Hin|Hout].
      * destruct (decide _); [|lia]. do 2 f_equal. lia.
      * destruct (decide (Z.of_nat j = wp)) as [Heq|Hne].
        -- destruct (decide _); [|lia].
           replace (Z.to_nat wp) with j by lia.
           rewrite list_lookup_insert_eq by lia.
           do 2 f_equal. lia.
        -- destruct (decide _); [lia|].
           apply list_lookup_insert_ne. lia.
Qed.

Lemma linear_copy_length buf pos data :
  (Z.to_nat pos + length data <= length buf)%nat ->
  length (linear_copy buf pos data) = length buf.
Proof.
  intros H. unfold linear_copy.
  rewrite !length_app, length_take, length_drop. lia.
Qed.

Lemma linear_copy_lookup buf pos data (j : nat) :
  (Z.to_nat pos + length data <= length buf)%nat ->
  linear_copy buf pos data !! j =
  if decide (Z.to_nat pos <= j < Z.to_nat pos + length data)%nat
  then data !! (j - Z.to_nat pos)%nat
  else buf !! j.
Proof.
  intros H. unfold linear_copy.
  destruct (decide (j < Z.to_nat pos)%nat) as [Hlt|Hge].
  - rewrite lookup_app_l by (rewrite length_take; lia).
    rewrite lookup_take_lt by lia.
    destruct (decide _); [lia|reflexivity].
  - rewrite lookup_app_r by (rewrite length_take; lia).
    rewrite length_take.
    replace (j - Z.to_nat pos `min` length buf)%nat with (j - Z.to_nat pos)%nat by lia.
    destruct (decide (j < Z.to_nat pos + length data)%nat) as [Hin|Hout].
    + rewrite lookup_app_l by lia.
      destruct (decide _); [reflexivity|lia].
    + rewrite lookup_app_r by lia.
      rewrite lookup_drop.
      destruct (decide _); [lia|]. f_equal. lia.
Qed.

Lemma msg_bytes_length str len : length (msg_bytes str len) = Z.to_nat len.
Proof. unfold msg_bytes. rewrite length_map, length_seq. reflexivity. Qed.

Lemma msg_bytes_lookup str len (k : nat) :
  (k < Z.to_nat len)%nat ->
  msg_bytes str len !! k = Some (str_at str (Z.of_nat k)).
Proof.
  intros H. unfold msg_bytes.
  change (map ?f ?l) with (f <$> l).
  rewrite list_lookup_fmap, lookup_seq_lt by lia. reflexivity.
Qed.

Lemma msg_bytes_exact str : msg_bytes str (Z.of_nat (length str)) = str.
Proof.
  apply list_eq. intros i.
  destruct (decide (i < length str)%nat) as [Hi|Hi].
  - rewrite msg_bytes_lookup by lia. unfold str_at.
    rewrite Nat2Z.id.
    destruct (lookup_lt_is_Some_2 str i Hi) as [c Hc]. rewrite Hc. reflexivity.
  - rewrite !lookup_ge_None_2; [reflexivity|lia|rewrite msg_bytes_length; lia].
Qed.

Lemma ring_copy_length buf pos data :
  0 <= pos < SEND_BUFFER_SIZE ->
  Z.of_nat (length buf) = SEND_BUFFER_SIZE ->
  Z.of_nat (length data) < SEND_BUFFER_SIZE ->
  length (ring_copy buf pos data) = length buf.
Proof.
  intros Hp Hb Hd. unfold ring_copy.
  destruct (Z.leb_spec (pos + Z.of_nat (length data)) SEND_BUFFER_SIZE).
  - apply linear_copy_length. lia.
  - rewrite !linear_copy_length; rewrite ?length_take, ?length_drop; try lia.
    rewrite linear_copy_length; rewrite ?length_take; lia.
Qed.

Lemma ring_copy_lookup buf pos data (j : nat) :
  0 <= pos < SEND_BUFFER_SIZE ->
  Z.of_nat (length buf) = SEND_BUFFER_SIZE ->
  Z.of_nat (length data) < SEND_BUFFER_SIZE ->
  Z.of_nat j < SEND_BUFFER_SIZE ->
  ring_copy buf pos data !! j =
  if decide (ring_dist pos (Z.of_nat j) < Z.of_nat (length data))
  then data !! Z.to_nat (ring_dist pos (Z.of_nat j))
  else buf !! j.
Proof.
  intros Hp Hb Hd Hj. unfold ring_copy, ring_dist.
  unfold SEND_BUFFER_SIZE in *.
  destruct (Z.leb_spec (pos + Z.of_nat (length data)) 512).
  - rewrite linear_copy_lookup by lia.
    destruct (decide (_ <= j < _)%nat); destruct (decide (_ < _)); try lia.
    + f_equal. lia.
    + reflexivity.
  - rewrite linear_copy_lookup
      by (rewrite linear_copy_length; rewrite ?length_take, ?length_drop; lia).
    rewrite length_drop.
    destruct (decide (_ <= j < _)%nat).
    + destruct (decide (_ < _)); [|lia].
      rewrite lookup_drop. f_equal. lia.
    + rewrite linear_copy_lookup by (rewrite length_take; lia).
      rewrite length_take.
      destruct (decide (_ <= j < _)%nat).
      * destruct (decide (_ < _)); [|lia].
        rewrite lookup_take_lt by lia. f_equal. lia.
      * destruct (decide (_ < _)); [lia|reflexivity].
Qed.

Lemma enqueue_copy_spec str len buf wp :
  0 <= wp < SEND_BUFFER_SIZE ->
  Z.of_nat (length buf) = SEND_BUFFER_SIZE ->
  0 < len < SEND_BUFFER_SIZE ->
  enqueue_copy str len buf wp ((wp + len) mod SEND_BUFFER_SIZE) =
  Some (ring_copy buf wp (msg_bytes str len)).
Proof.
  intros Hwp Hb Hlen. unfold enqueue_copy.
  assert (Hml : length (msg_bytes str len) = Z.to_nat len)
    by apply msg_bytes_length.
  assert (Hrl : length (ring_copy buf wp (msg_bytes str len)) = length buf)
    by (apply ring_copy_length; lia).
  destruct (Z.ltb_spec wp ((wp + len) mod SEND_BUFFER_SIZE)) as [Hlt|Hge].
  - (* a single loop *)
    unfold copy_while.
    destruct (copy_loop_spec (Z.to_nat (len - 0)) str buf wp 0)
      as (buf1 & Hrun & Hl1 & Hlook1);
      try (unfold SEND_BUFFER_SIZE in *; lia).
    rewrite Hrun. cbn [mbind option_bind]. f_equal.
    apply list_eq. intros j.
    destruct (decide (Z.of_nat j < SEND_BUFFER_SIZE)) as [Hj|Hj].
    + rewrite Hlook1, ring_copy_lookup by lia.
      unfold ring_dist. rewrite Hml.
      destruct (decide (_ <= _ < _)); destruct (decide (_ < _));
        try (unfold SEND_BUFFER_SIZE in *; lia); [|reflexivity].
      rewrite msg_bytes_lookup by (unfold SEND_BUFFER_SIZE in *; lia).
      do 2 f_equal. unfold SEND_BUFFER_SIZE in *; lia.
    + rewrite !lookup_ge_None_2 by lia. reflexivity.
  - (* two loops *)
    unfold copy_while.
    assert (Hte : to_u16 (SEND_BUFFER_SIZE - wp) = SEND_BUFFER_SIZE - wp)
      by (apply to_u16_id; unfold is_u16, SEND_BUFFER_SIZE in *; lia).
    rewrite Hte.
    destruct (copy_loop_spec (Z.to_nat (SEND_BUFFER_SIZE - wp - 0)) str buf wp 0)
      as (buf1 & Hrun1 & Hl1 & Hlook1);
      try (unfold SEND_BUFFER_SIZE in *; lia).
    rewrite Hrun1. cbn [mbind option_bind].
    destruct (copy_loop_spec
                (Z.to_nat (len - (0 + Z.of_nat (Z.to_nat (SEND_BUFFER_SIZE - wp - 0)))))
                str buf1 0 (0 + Z.of_nat (Z.to_nat (SEND_BUFFER_SIZE - wp - 0))))
      as (buf2 & Hrun2 & Hl2 & Hlook2);
      try (unfold SEND_BUFFER_SIZE in *; lia).
    rewrite Hrun2. cbn [mbind option_bind]. f_equal.
    apply list_eq. intros j.
    destruct (decide (Z.of_nat j < SEND_BUFFER_SIZE)) as [Hj|Hj].
    + rewrite Hlook2, Hlook1, ring_copy_lookup by lia.
      unfold ring_dist. rewrite Hml.
      destruct (decide (0 <= _ < _)).
      * destruct (decide (_ < _)); [|unfold SEND_BUFFER_SIZE in *; lia].
        rewrite msg_bytes_lookup by (unfold SEND_BUFFER_SIZE in *; lia).
        do 2 f_equal. unfold SEND_BUFFER_SIZE in *; lia.
      * destruct (decide (wp <= _ < _)); destruct (decide (_ < _));
          try (unfold SEND_BUFFER_SIZE in *; lia); [|reflexivity].
        rewrite msg_bytes_lookup by (unfold SEND_BUFFER_SIZE in *; lia).
        do 2 f_equal. unfold SEND_BUFFER_SIZE in *; lia.
    + rewrite !lookup_ge_None_2 by lia. reflexivity.
Qed.

Lemma set_enqueue_guard_same g s :
  g = m_enqueue_guard s -> set_enqueue_guard g s = s.
Proof. destruct s; cbn; intros ->; reflexivity. Qed.

Lemma enqueue_missed in_isr str len s :
  wf s ->
  len = 0 \/ availableSpace s (m_write_pos s) < len ->
  enqueue in_isr str len s =
  Some (process in_isr (set_missed_count (ATOMIC_INCH (m_missed_count s)) s)).
Proof.
  intros Hwf [->|Hlt].
  - unfold enqueue.
    change (availableSpace (set_enqueue_guard _ s) _)
      with (availableSpace s (m_write_pos s)).
    pose proof (availableSpace_nonneg s (m_write_pos s)).
    destruct (Z.leb_spec 0 (availableSpace s (m_write_pos s))); [|lia].
    cbn [m_write_pos set_enqueue_guard].
    assert (Hadv : advancePos (m_write_pos s) 0 = m_write_pos s).
    { rewrite advancePos_mod. destruct Hwf. unfold SEND_BUFFER_SIZE in *. lia. }
    rewrite Hadv, Z.eqb_refl. cbn [negb mbind option_bind].
    cbn [m_enqueue_guard set_missed_count set_write_pos set_enqueue_guard].
    rewrite guard_inc_dec by apply Hwf.
    destruct s; reflexivity.
  - rewrite enqueue_dropped by exact Hlt.
    rewrite guard_inc_dec by apply Hwf.
    reflexivity.
Qed.

Lemma enqueue_reserved in_isr str len s :
  wf s ->
  0 < len <= availableSpace s (m_write_pos s) ->
  enqueue in_isr str len s =
  Some (process in_isr
          (set_send_buffer
             (ring_copy (m_send_buffer s) (m_write_pos s) (msg_bytes str len))
             (set_write_pos (advancePos (m_write_pos s) len) s))).
Proof.
  intros Hwf Hlen.
  pose proof (availableSpace_ring s (m_write_pos s)
                (wf_read_pos s Hwf) (wf_write_pos s Hwf)) as Hav.
  assert (Hlt : len < SEND_BUFFER_SIZE).
  { unfold ring_dist, SEND_BUFFER_SIZE in *. lia. }
  unfold enqueue.
  change (availableSpace (set_enqueue_guard _ s) _)
    with (availableSpace s (m_write_pos s)).
  destruct (Z.leb_spec len (availableSpace s (m_write_pos s))); [|lia].
  cbn [m_write_pos set_enqueue_guard].
  rewrite advancePos_mod.
  destruct (Z.eqb_spec (m_write_pos s)
              ((m_write_pos s + len) mod SEND_BUFFER_SIZE)) as [Heq|Hne].
  { destruct Hwf. unfold SEND_BUFFER_SIZE in *. lia. }
  cbn [negb m_send_buffer set_write_pos set_enqueue_guard].
  rewrite enqueue_copy_spec; try apply Hwf; try lia.
  cbn [mbind option_bind m_enqueue_guard set_send_buffer set_write_pos
       set_enqueue_guard].
  rewrite guard_inc_dec by apply Hwf.
  reflexivity.
Qed.

(** ** Well-formed states stay well-formed *)

Lemma wf_init huart : wf (fst (init huart logger0)).
Proof. split; cbn; unfold is_u16, SEND_BUFFER_SIZE; try lia. reflexivity. Qed.

Lemma wf_startTransfer s : wf s -> wf (fst (startTransfer s)).
Proof.
  intros [Hr Hn Hw Hb Hg Hm]. unfold startTransfer.
  destruct (negb _ && _); [destruct (_ <? _)|]; split; cbn;
    try assumption; unfold SEND_BUFFER_SIZE; lia.
Qed.

Lemma wf_process in_isr s : wf s -> wf (fst (process in_isr s)).
Proof.
  intros H. unfold process. destruct (_ || _); [exact H|].
  apply wf_startTransfer, H.
Qed.

Lemma wf_transferCompletedCallback huart s :
  wf s -> wf (fst (transferCompletedCallback huart s)).
Proof.
  intros H. unfold transferCompletedCallback. destruct (_ =? _); [|exact H].
  apply wf_startTransfer. destruct H. split; cbn; assumption.
Qed.

Lemma enqueue_total in_isr str len s :
  wf s -> 0 <= len ->
  exists s' cs, enqueue in_isr str len s = Some (s', cs) /\ wf s'.
Proof.
  intros Hwf Hlen.
  destruct (decide (0 < len <= availableSpace s (m_write_pos s))) as [Hfit|Hno].
  - rewrite enqueue_reserved by assumption.
    destruct (process in_isr _) as [s' cs] eqn:Hp.
    exists s', cs. split; [reflexivity|].
    change s' with (fst (s', cs)). rewrite <- Hp. apply wf_process.
    pose proof (availableSpace_ring s (m_write_pos s)
                  (wf_read_pos s Hwf) (wf_write_pos s Hwf)) as Hav.
    destruct Hwf as [Hr Hn Hw Hb Hg Hm]. split; cbn; try assumption.
    + rewrite advancePos_mod. unfold SEND_BUFFER_SIZE. lia.
    + rewrite ring_copy_length; try assumption.
      rewrite msg_bytes_length. unfold ring_dist, SEND_BUFFER_SIZE in *. lia.
  - rewrite enqueue_missed by (assumption || lia).
    destruct (process in_isr _) as [s' cs] eqn:Hp.
    exists s', cs. split; [reflexivity|].
    change s' with (fst (s', cs)). rewrite <- Hp. apply wf_process.
    destruct Hwf as [Hr Hn Hw Hb Hg Hm]. split; cbn; try assumption.
    apply to_u16_range.
Qed.

Lemma step_total s ev :
  wf s ->
  match ev with EvEnqueue _ _ len => 0 <= len | _ => True end ->
  exists s' cs, step s ev = Some (s', cs) /\ wf s'.
Proof.
  intros Hwf Hev. destruct ev as [in_isr str len|in_isr|huart]; cbn [step].
  - apply enqueue_total; assumption.
  - destruct (process in_isr s) as [s' cs] eqn:Hp. exists s', cs.
    split; [reflexivity|]. change s' with (fst (s', cs)). rewrite <- Hp.
    apply wf_process, Hwf.
  - destruct (transferCompletedCallback huart s) as [s' cs] eqn:Hp. exists s', cs.
    split; [reflexivity|]. change s' with (fst (s', cs)). rewrite <- Hp.
    apply wf_transferCompletedCallback, Hwf.
Qed.

(** ** What every call of [enqueue] leaves alone *)

Lemma enqueue_fields in_isr str len s s' cs :
  enqueue in_isr str len s = Some (s', cs) ->
  m_read_pos s' = m_read_pos s /\ m_uart s' = m_uart s /\
  m_write_pos s' =
    (if len <=? availableSpace s (m_write_pos s)
     then advancePos (m_write_pos s) len else m_write_pos s) /\
  (m_missed_count s' = m_missed_count s \/
   m_missed_count s' = ATOMIC_INCH (m_missed_count s) /\
   m_write_pos s' = m_write_pos s /\
   m_send_buffer s' = m_send_buffer s).
Proof.
  unfold enqueue.
  change (availableSpace (set_enqueue_guard _ s) _)
    with (availableSpace s (m_write_pos s)).
  cbn [m_write_pos set_enqueue_guard].
  set (nwp := if len <=? availableSpace s (m_write_pos s)
              then advancePos (m_write_pos s) len else m_write_pos s).
  destruct (Z.eqb_spec (m_write_pos s) nwp) as [Heq|Hne]; cbn [negb].
  - cbn [mbind option_bind]. intros [= Hp].
    match type of Hp with
    | process _ ?x = _ => pose proof (process_fields in_isr x) as Hf
    end.
    rewrite Hp in Hf. cbn in Hf.
    destruct Hf as (Hr & Hw & Hb & Hm & _ & Hu).
    repeat split; try assumption. right. repeat split; congruence.
  - destruct (enqueue_copy _ _ _ _ _) as [buf|]; cbn [mbind option_bind];
      [|discriminate].
    intros [= Hp].
    match type of Hp with
    | process _ ?x = _ => pose proof (process_fields in_isr x) as Hf
    end.
    rewrite Hp in Hf. cbn in Hf.
    destruct Hf as (Hr & Hw & Hb & Hm & _ & Hu).
    repeat split; try assumption. left. assumption.
Qed.

(** ** Dropped messages *)

(** C2, as the code behaves. When [length] exceeds [availableSpace(write_pos)]
    the call returns normally with the storage contents, [m_write_pos] and
    [m_read_pos] unchanged (nothing of the message is written), and
    [m_missed_count] becomes [(m_missed_count + 1) mod 2^16]: it goes up by
    exactly 1 unless it was 65535, where the half-word store wraps it to 0. *)
Theorem enqueue_no_space_drops in_isr str len s :
  availableSpace s (m_write_pos s) < len ->
  exists s' cs,
    enqueue in_isr str len s = Some (s', cs) /\
    m_send_buffer s' = m_send_buffer s /\
    m_write_pos s' = m_write_pos s /\
    m_read_pos s' = m_read_pos s /\
    m_missed_count s' = (m_missed_count s + 1) mod 65536 /\
    (0 <= m_missed_count s < 65535 ->
     m_missed_count s' = m_missed_count s + 1).
Proof.
  intros Hlt. rewrite enqueue_dropped by exact Hlt.
  match goal with
  | |- context [process in_isr ?x] =>
      pose proof (process_fields in_isr x) as Hf;
      destruct (process in_isr x) as [s' cs]
  end.
  cbn in Hf. destruct Hf as (Hr & Hw & Hb & Hm & _ & _).
  exists s', cs. conjuncts; try assumption; try reflexivity.
  intros Hc. rewrite Hm. unfold ATOMIC_INCH, to_u16. lia.
Qed.

Lemma enqueue_no_space_drops_witness :
  availableSpace full_logger (m_write_pos full_logger) < 2 /\
  exists s' cs,
    enqueue false [x42; x43] 2 full_logger = Some (s', cs) /\
    m_send_buffer s' = m_send_buffer full_logger /\
    m_write_pos s' = m_write_pos full_logger /\
    m_read_pos s' = m_read_pos full_logger /\
    m_missed_count s' = (m_missed_count full_logger + 1) mod 65536 /\
    (0 <= m_missed_count full_logger < 65535 ->
     m_missed_count s' = m_missed_count full_logger + 1).
Proof.
  split; [reflexivity|].
  apply (enqueue_no_space_drops false [x42; x43] 2 full_logger). reflexivity.
Defined.

(** C2 as stated fails where the counter is at its largest value: the ring
    is full, a one-byte message is dropped, and [m_missed_count] goes from
    65535 to 0 instead of increasing by 1. *)
Lemma enqueue_no_space_count_wraps :
  wf full_logger /\
  availableSpace full_logger (m_write_pos full_logger) < 1 /\
  exists s' cs,
    enqueue true [x42] 1 full_logger = Some (s', cs) /\
    m_missed_count full_logger = 65535 /\
    m_missed_count s' = 0 /\
    m_missed_count s' <> m_missed_count full_logger + 1.
Proof.
  split; [|split].
  - split; cbn; unfold is_u16, SEND_BUFFER_SIZE; first [lia|reflexivity].
  - reflexivity.
  - eexists _, _. split; [vm_compute; reflexivity|].
    cbn. conjuncts; try reflexivity. lia.
Qed.

(** ** Zero-length messages *)

(** C10, as the code behaves. [enqueue(str, 0)] writes nothing to storage and
    leaves [m_write_pos] alone, and it is counted as a miss whatever the
    available space is: [m_missed_count] becomes
    [(m_missed_count + 1) mod 2^16], that is one more unless it was 65535. *)
Theorem enqueue_zero_length in_isr str s :
  wf s ->
  exists s' cs,
    enqueue in_isr str 0 s = Some (s', cs) /\
    m_send_buffer s' = m_send_buffer s /\
    m_write_pos s' = m_write_pos s /\
    m_missed_count s' = (m_missed_count s + 1) mod 65536 /\
    (m_missed_count s < 65535 -> m_missed_count s' = m_missed_count s + 1).
Proof.
  intros Hwf. rewrite enqueue_missed by (assumption || (left; reflexivity)).
  match goal with
  | |- context [process in_isr ?x] =>
      pose proof (process_fields in_isr x) as Hf;
      destruct (process in_isr x) as [s' cs]
  end.
  cbn in Hf. destruct Hf as (Hr & Hw & Hb & Hm & _ & _).
  exists s', cs. conjuncts; try assumption; try reflexivity.
  intros Hc. rewrite Hm. destruct Hwf.
  unfold ATOMIC_INCH, to_u16, is_u16 in *. lia.
Qed.

Lemma wf_idle_logger : wf idle_logger.
Proof. apply wf_init. Qed.

Lemma enqueue_zero_length_witness :
  wf idle_logger /\
  availableSpace idle_logger (m_write_pos idle_logger) = 511 /\
  exists s' cs,
    enqueue false [] 0 idle_logger = Some (s', cs) /\
    m_send_buffer s' = m_send_buffer idle_logger /\
    m_write_pos s' = m_write_pos idle_logger /\
    m_missed_count s' = (m_missed_count idle_logger + 1) mod 65536 /\
    (m_missed_count idle_logger < 65535 ->
     m_missed_count s' = m_missed_count idle_logger + 1).
Proof.
  split; [apply wf_init|]. split; [reflexivity|].
  apply (enqueue_zero_length false [] idle_logger). apply wf_init.
Defined.

(** C10 as stated fails where the counter is at its largest value: an empty
    ring with 511 bytes available, [enqueue(str, 0)], and [m_missed_count]
    goes from 65535 to 0 instead of being incremented by 1. *)
Lemma enqueue_zero_length_count_wraps :
  availableSpace empty_logger_max_missed
                 (m_write_pos empty_logger_max_missed) = 511 /\
  exists s' cs,
    enqueue true [] 0 empty_logger_max_missed = Some (s', cs) /\
    m_missed_count empty_logger_max_missed = 65535 /\
    m_missed_count s' = 0 /\
    m_missed_count s' <> m_missed_count empty_logger_max_missed + 1.
Proof.
  split; [reflexivity|].
  eexists _, _. split; [vm_compute; reflexivity|].
  cbn. repeat split. lia.
Qed.

(** ** The miss counter over a step *)

(** C8, as the code behaves. Over any operation [m_missed_count] either
    keeps its value or becomes [(m_missed_count + 1) mod 2^16]; so it never
    decreases as long as it is below 65535, and the only decrease is the
    wrap from 65535 to 0. *)
Theorem missed_count_step s ev s' cs :
  step s ev = Some (s', cs) ->
  is_u16 (m_missed_count s) ->
  (m_missed_count s' = m_missed_count s \/
   m_missed_count s' = (m_missed_count s + 1) mod 65536) /\
  (m_missed_count s < 65535 -> m_missed_count s <= m_missed_count s') /\
  (m_missed_count s' < m_missed_count s ->
   m_missed_count s = 65535 /\ m_missed_count s' = 0).
Proof.
  intros Hstep Hu.
  assert (Hcases : m_missed_count s' = m_missed_count s \/
                   m_missed_count s' = (m_missed_count s + 1) mod 65536).
  { destruct ev as [in_isr str len|in_isr|huart]; cbn [step] in Hstep.
    - apply enqueue_fields in Hstep.
      destruct Hstep as (_ & _ & _ & [Hm|(Hm & _)]); [left|right]; exact Hm.
    - injection Hstep as Hp. left.
      pose proof (process_fields in_isr s) as Hf. rewrite Hp in Hf.
      cbn in Hf. tauto.
    - injection Hstep as Hp. left. unfold transferCompletedCallback in Hp.
      destruct (huart =? m_uart s).
      + pose proof (startTransfer_fields (set_read_pos (m_new_read_pos s) s)) as Hf.
        rewrite Hp in Hf. cbn in Hf. tauto.
      + congruence. }
  split; [exact Hcases|].
  unfold is_u16 in Hu. split; intros Hlt; destruct Hcases as [Hc|Hc]; lia.
Qed.

Lemma missed_count_step_witness :
  step full_logger (EvEnqueue true [x42] 1) =
    Some (set_missed_count 0 full_logger, []) /\
  is_u16 (m_missed_count full_logger) /\
  (m_missed_count (set_missed_count 0 full_logger) = m_missed_count full_logger \/
   m_missed_count (set_missed_count 0 full_logger) =
     (m_missed_count full_logger + 1) mod 65536) /\
  (m_missed_count full_logger < 65535 ->
   m_missed_count full_logger <= m_missed_count (set_missed_count 0 full_logger)) /\
  (m_missed_count (set_missed_count 0 full_logger) < m_missed_count full_logger ->
   m_missed_count full_logger = 65535 /\
   m_missed_count (set_missed_count 0 full_logger) = 0).
Proof.
  split; [vm_compute; reflexivity|].
  split; [unfold is_u16; cbn; lia|].
  apply (missed_count_step full_logger (EvEnqueue true [x42] 1)
           (set_missed_count 0 full_logger) []).
  - vm_compute; reflexivity.
  - unfold is_u16; cbn; lia.
Defined.

(** C8 as stated fails: dropping a message when the counter holds 65535
    leaves it at 0, which is smaller than before. *)
Lemma missed_count_decreases :
  exists s' cs,
    step full_logger (EvEnqueue true [x42] 1) = Some (s', cs) /\
    m_missed_count s' < m_missed_count full_logger.
Proof.
  eexists _, _. split; [vm_compute; reflexivity|]. cbn. lia.
Qed.

(** ** The transfer-kick path *)

(** C7. [process()] called while [m_is_sending] is set, or while
    [m_write_pos == m_read_pos], changes no field of the logger and makes no
    HAL call. *)
Theorem process_noop in_isr s :
  m_is_sending s = true \/ m_write_pos s = m_read_pos s ->
  process in_isr s = (s, []).
Proof.
  intros [Hs|Heq].
  - apply process_idle. rewrite Hs. reflexivity.
  - unfold process. destruct (m_is_sending s) eqn:Hs; [reflexivity|].
    destruct in_isr; [reflexivity|]. cbn [orb].
    unfold startTransfer. rewrite Heq, Z.eqb_refl. cbn [negb andb].
    f_equal. destruct s; cbn in *. subst. reflexivity.
Qed.

Lemma process_noop_witness :
  (m_is_sending idle_logger = true \/
   m_write_pos idle_logger = m_read_pos idle_logger) /\
  process false idle_logger = (idle_logger, []).
Proof.
  split; [right; reflexivity|].
  apply (process_noop false idle_logger). right. reflexivity.
Defined.

(** C4. With data pending and no enqueue in progress, [startTransfer] sets
    [m_is_sending] and asks the DMA for one contiguous range starting at
    [m_read_pos]: up to [m_write_pos] when the queued range does not wrap,
    recording [m_new_read_pos = m_write_pos]; up to the end of storage when
    it wraps, recording [m_new_read_pos = 0]. Either way the requested range
    is non-empty and lies inside the buffer. *)
Theorem startTransfer_contiguous s :
  wf s ->
  m_write_pos s <> m_read_pos s ->
  m_enqueue_guard s = 0 ->
  (m_read_pos s < m_write_pos s ->
   startTransfer s =
     (set_new_read_pos (m_write_pos s) (set_is_sending true s),
      [HAL_UART_Transmit_DMA (m_uart s) (m_read_pos s)
                             (m_write_pos s - m_read_pos s);
       HAL_DMA_DISABLE_IT_HT (m_uart s)])) /\
  (m_write_pos s < m_read_pos s ->
   startTransfer s =
     (set_new_read_pos 0 (set_is_sending true s),
      [HAL_UART_Transmit_DMA (m_uart s) (m_read_pos s)
                             (SEND_BUFFER_SIZE - m_read_pos s);
       HAL_DMA_DISABLE_IT_HT (m_uart s)])) /\
  (forall huart pData Size,
     In (HAL_UART_Transmit_DMA huart pData Size) (snd (startTransfer s)) ->
     0 <= pData /\ 0 < Size /\ pData + Size <= SEND_BUFFER_SIZE).
Proof.
  intros Hwf Hne Hg.
  destruct Hwf as [Hr Hn Hw Hb _ _].
  unfold startTransfer. rewrite Hg.
  destruct (Z.eqb_spec (m_write_pos s) (m_read_pos s)) as [|_]; [contradiction|].
  cbn [negb andb Z.eqb m_read_pos m_uart set_is_sending set_new_read_pos].
  destruct (Z.ltb_spec (m_read_pos s) (m_write_pos s)) as [Hlt|Hge].
  - assert (Hsz : to_u16 (m_write_pos s - m_read_pos s) =
                  m_write_pos s - m_read_pos s)
      by (apply to_u16_id; unfold is_u16, SEND_BUFFER_SIZE in *; lia).
    rewrite Hsz. conjuncts.
    + reflexivity.
    + lia.
    + cbn [snd In]. intros huart pData Size [[= _ <- <-]|[[=]|[]]].
      unfold SEND_BUFFER_SIZE in *. lia.
  - assert (Hsz : to_u16 (SEND_BUFFER_SIZE - m_read_pos s) =
                  SEND_BUFFER_SIZE - m_read_pos s)
      by (apply to_u16_id; unfold is_u16, SEND_BUFFER_SIZE in *; lia).
    rewrite Hsz. conjuncts.
    + lia.
    + reflexivity.
    + cbn [snd In]. intros huart pData Size [[= _ <- <-]|[[=]|[]]].
      unfold SEND_BUFFER_SIZE in *. lia.
Qed.

Lemma wf_wrapped_logger : wf wrapped_logger.
Proof. split; cbn; unfold is_u16, SEND_BUFFER_SIZE; try lia. reflexivity. Qed.

Lemma startTransfer_contiguous_witness :
  snd (startTransfer wrapped_logger) =
    [HAL_UART_Transmit_DMA 1 500 12; HAL_DMA_DISABLE_IT_HT 1] /\
  m_new_read_pos (fst (startTransfer wrapped_logger)) = 0 /\
  (forall huart pData Size,
     In (HAL_UART_Transmit_DMA huart pData Size) (snd (startTransfer wrapped_logger)) ->
     0 <= pData /\ 0 < Size /\ pData + Size <= SEND_BUFFER_SIZE).
Proof.
  assert (Hne : m_write_pos wrapped_logger <> m_read_pos wrapped_logger)
    by (cbn; lia).
  destruct (startTransfer_contiguous wrapped_logger wf_wrapped_logger Hne eq_refl)
    as (_ & Hwrap & Hin).
  assert (Hlt : m_write_pos wrapped_logger < m_read_pos wrapped_logger)
    by (cbn; lia).
  rewrite (Hwrap Hlt). conjuncts; [reflexivity|reflexivity|].
  rewrite <- (Hwrap Hlt). exact Hin.
Defined.

(** ** Available space *)

(** The occupied byte count after an [enqueue] is the count before plus
    the reserved length: it never wraps around to 0. *)
Lemma enqueue_occupancy in_isr str len s s' cs :
  wf s -> 0 <= len ->
  enqueue in_isr str len s = Some (s', cs) ->
  ring_dist (m_read_pos s') (m_write_pos s') =
  ring_dist (m_read_pos s) (m_write_pos s) +
  (if len <=? availableSpace s (m_write_pos s) then len else 0).
Proof.
  intros Hwf Hlen Hrun. apply enqueue_fields in Hrun.
  destruct Hrun as (Hr & _ & Hw & _). rewrite Hr, Hw.
  pose proof (availableSpace_ring s (m_write_pos s)
                (wf_read_pos s Hwf) (wf_write_pos s Hwf)) as Hav.
  destruct Hwf as [Hrp _ Hwpos _ _ _].
  destruct (Z.leb_spec len (availableSpace s (m_write_pos s))); [|lia].
  rewrite advancePos_mod. unfold ring_dist, SEND_BUFFER_SIZE in *. lia.
Qed.

(** C5. [availableSpace(write_pos)] depends on the logger only through
    [m_read_pos]; for cursors inside the buffer it is the capacity minus the
    occupied byte count minus one, hence at most [SEND_BUFFER_SIZE - 1].
    Consequently an [enqueue] on a non-empty ring never ends with
    [m_write_pos == m_read_pos], and whenever the cursors are equal after an
    [enqueue] the ring was empty before and the call wrote nothing. *)
Theorem availableSpace_one_slot_free s wp :
  wf s ->
  0 <= wp < SEND_BUFFER_SIZE ->
  (forall s2, m_read_pos s2 = m_read_pos s ->
              availableSpace s2 wp = availableSpace s wp) /\
  availableSpace s wp = SEND_BUFFER_SIZE - ring_dist (m_read_pos s) wp - 1 /\
  0 <= availableSpace s wp <= SEND_BUFFER_SIZE - 1 /\
  (forall in_isr str len s' cs,
     0 <= len ->
     enqueue in_isr str len s = Some (s', cs) ->
     (m_write_pos s <> m_read_pos s -> m_write_pos s' <> m_read_pos s') /\
     (m_write_pos s' = m_read_pos s' ->
      m_write_pos s = m_read_pos s /\ m_write_pos s' = m_write_pos s /\
      m_send_buffer s' = m_send_buffer s)).
Proof.
  intros Hwf Hwp.
  pose proof (availableSpace_ring s wp (wf_read_pos s Hwf) Hwp) as Hav.
  conjuncts.
  - intros s2 Hr. rewrite !availableSpace_read_pos, Hr. reflexivity.
  - exact Hav.
  - apply availableSpace_nonneg.
  - rewrite Hav. unfold ring_dist, SEND_BUFFER_SIZE. lia.
  - intros in_isr str len s' cs Hlen Hrun.
    pose proof (enqueue_occupancy in_isr str len s s' cs Hwf Hlen Hrun) as Hocc.
    pose proof (availableSpace_ring s (m_write_pos s)
                  (wf_read_pos s Hwf) (wf_write_pos s Hwf)) as Hav2.
    pose proof (enqueue_fields in_isr str len s s' cs Hrun) as (Hr & _ & Hw & _).
    pose proof Hwf as [Hrp _ Hwpos _ _ _].
    split.
    + intros Hne Heq. rewrite Heq in Hocc.
      destruct (len <=? availableSpace s (m_write_pos s));
        unfold ring_dist, SEND_BUFFER_SIZE in *; lia.
    + intros Heq. rewrite Heq in Hocc.
      assert (Hmiss : len = 0 \/ availableSpace s (m_write_pos s) < len).
      { destruct (Z.leb_spec len (availableSpace s (m_write_pos s))); [|lia].
        unfold ring_dist, SEND_BUFFER_SIZE in *. lia. }
      rewrite (enqueue_missed in_isr str len s Hwf Hmiss) in Hrun.
      injection Hrun as Hp.
      match type of Hp with
      | process _ ?x = _ => pose proof (process_fields in_isr x) as Hf
      end.
      rewrite Hp in Hf. cbn in Hf.
      destruct Hf as (_ & Hw' & Hb' & _).
      conjuncts; [|exact Hw'|exact Hb'].
      destruct (len <=? availableSpace s (m_write_pos s));
        unfold ring_dist, SEND_BUFFER_SIZE in *; lia.
Qed.

Lemma availableSpace_one_slot_free_witness :
  wf wrapped_logger /\ 0 <= 3 < SEND_BUFFER_SIZE /\
  (forall s2, m_read_pos s2 = m_read_pos wrapped_logger ->
              availableSpace s2 3 = availableSpace wrapped_logger 3) /\
  availableSpace wrapped_logger 3 =
    SEND_BUFFER_SIZE - ring_dist (m_read_pos wrapped_logger) 3 - 1 /\
  0 <= availableSpace wrapped_logger 3 <= SEND_BUFFER_SIZE - 1 /\
  (forall in_isr str len s' cs,
     0 <= len ->
     enqueue in_isr str len wrapped_logger = Some (s', cs) ->
     (m_write_pos wrapped_logger <> m_read_pos wrapped_logger ->
      m_write_pos s' <> m_read_pos s') /\
     (m_write_pos s' = m_read_pos s' ->
      m_write_pos wrapped_logger = m_read_pos wrapped_logger /\
      m_write_pos s' = m_write_pos wrapped_logger /\
      m_send_buffer s' = m_send_buffer wrapped_logger)).
Proof.
  split; [exact wf_wrapped_logger|].
  split; [unfold SEND_BUFFER_SIZE; lia|].
  apply (availableSpace_one_slot_free wrapped_logger 3 wf_wrapped_logger).
  unfold SEND_BUFFER_SIZE; lia.
Defined.

(** ** A successful reservation *)

(** For a well-formed state the reservation succeeds, that is [m_write_pos]
    changes, exactly when the message is non-empty and fits. *)
Lemma reservation_succeeds_iff in_isr str len s s' cs :
  wf s -> 0 <= len ->
  enqueue in_isr str len s = Some (s', cs) ->
  m_write_pos s' <> m_write_pos s <->
  0 < len <= availableSpace s (m_write_pos s).
Proof.
  intros Hwf Hlen Hrun. apply enqueue_fields in Hrun.
  destruct Hrun as (_ & _ & Hw & _). rewrite Hw.
  pose proof (availableSpace_ring s (m_write_pos s)
                (wf_read_pos s Hwf) (wf_write_pos s Hwf)) as Hav.
  destruct Hwf as [Hrp _ Hwpos _ _ _].
  destruct (Z.leb_spec len (availableSpace s (m_write_pos s))).
  - rewrite advancePos_mod. unfold ring_dist, SEND_BUFFER_SIZE in *. lia.
  - lia.
Qed.

Lemma enqueue_reserved_state in_isr str len s :
  wf s ->
  0 < len <= availableSpace s (m_write_pos s) ->
  exists s' cs,
    enqueue in_isr str len s = Some (s', cs) /\
    (s', cs) =
      process in_isr
        (set_send_buffer
           (ring_copy (m_send_buffer s) (m_write_pos s) (msg_bytes str len))
           (set_write_pos ((m_write_pos s + len) mod SEND_BUFFER_SIZE) s)) /\
    m_send_buffer s' =
      ring_copy (m_send_buffer s) (m_write_pos s) (msg_bytes str len) /\
    m_write_pos s' = (m_write_pos s + len) mod SEND_BUFFER_SIZE /\
    m_read_pos s' = m_read_pos s /\
    m_missed_count s' = m_missed_count s /\
    m_enqueue_guard s' = m_enqueue_guard s /\
    m_uart s' = m_uart s.
Proof.
  intros Hwf Hlen. rewrite enqueue_reserved by assumption.
  rewrite advancePos_mod.
  match goal with
  | |- context [process in_isr ?x] =>
      pose proof (process_fields in_isr x) as Hf;
      destruct (process in_isr x) as [s' cs]
  end.
  cbn in Hf. destruct Hf as (Hr & Hw & Hb & Hm & Hg & Hu).
  exists s', cs. conjuncts; (reflexivity || assumption).
Qed.

Lemma fits_below_capacity s len :
  wf s -> len <= availableSpace s (m_write_pos s) -> len < SEND_BUFFER_SIZE.
Proof.
  intros Hwf Hlen.
  pose proof (availableSpace_ring s (m_write_pos s)
                (wf_read_pos s Hwf) (wf_write_pos s Hwf)) as Hav.
  unfold ring_dist, SEND_BUFFER_SIZE in *. lia.
Qed.

(** C3. When the reservation succeeds, byte [i] of [str] is in storage at
    index [(old write_pos + i) mod SEND_BUFFER_SIZE] for every [i] below
    [length]. The storage is the old one after a single linear copy of the
    message at the old [write_pos] when the destination ends within storage,
    and after two linear copies, the first [SEND_BUFFER_SIZE - write_pos]
    bytes up to the end of storage and the rest from index 0, when the
    destination crosses the end of storage. *)
Theorem enqueue_copies_message in_isr str len s :
  wf s ->
  0 < len <= availableSpace s (m_write_pos s) ->
  exists s' cs,
    enqueue in_isr str len s = Some (s', cs) /\
    m_write_pos s' <> m_write_pos s /\
    (forall i, 0 <= i < len ->
       m_send_buffer s' !! Z.to_nat ((m_write_pos s + i) mod SEND_BUFFER_SIZE) =
       Some (str_at str i)) /\
    (m_write_pos s + len <= SEND_BUFFER_SIZE ->
     m_send_buffer s' =
       linear_copy (m_send_buffer s) (m_write_pos s) (msg_bytes str len)) /\
    (SEND_BUFFER_SIZE < m_write_pos s + len ->
     let k := Z.to_nat (SEND_BUFFER_SIZE - m_write_pos s) in
     m_send_buffer s' =
       linear_copy
         (linear_copy (m_send_buffer s) (m_write_pos s)
                      (take k (msg_bytes str len)))
         0 (drop k (msg_bytes str len))).
Proof.
  intros Hwf Hlen.
  pose proof (fits_below_capacity s len Hwf (proj2 Hlen)) as Hcap.
  destruct (enqueue_reserved_state in_isr str len s Hwf Hlen)
    as (s' & cs & Hrun & _ & Hb & Hw & _).
  exists s', cs. destruct Hwf as [Hrp _ Hwpos Hbl _ _].
  conjuncts.
  - exact Hrun.
  - rewrite Hw. unfold SEND_BUFFER_SIZE in *. lia.
  - intros i Hi. rewrite Hb, ring_copy_lookup;
      rewrite ?msg_bytes_length; try (unfold SEND_BUFFER_SIZE in *; lia).
    unfold ring_dist.
    destruct (decide _) as [_|Hout]; [|unfold SEND_BUFFER_SIZE in *; lia].
    rewrite msg_bytes_lookup by (unfold SEND_BUFFER_SIZE in *; lia).
    do 2 f_equal. unfold SEND_BUFFER_SIZE in *. lia.
  - intros Hfit. rewrite Hb. unfold ring_copy. rewrite msg_bytes_length.
    destruct (Z.leb_spec (m_write_pos s + Z.of_nat (Z.to_nat len)) SEND_BUFFER_SIZE);
      [reflexivity|lia].
  - intros Hcross k. rewrite Hb. unfold ring_copy. rewrite msg_bytes_length.
    destruct (Z.leb_spec (m_write_pos s + Z.of_nat (Z.to_nat len)) SEND_BUFFER_SIZE);
      [lia|reflexivity].
Qed.

Lemma wf_tail_logger : wf tail_logger.
Proof. split; cbn; unfold is_u16, SEND_BUFFER_SIZE; try lia. reflexivity. Qed.

Lemma enqueue_copies_message_witness :
  wf tail_logger /\
  0 < 5 <= availableSpace tail_logger (m_write_pos tail_logger) /\
  exists s' cs,
    enqueue true [x42; x43; x44; x45; x46] 5 tail_logger = Some (s', cs) /\
    m_write_pos s' <> m_write_pos tail_logger /\
    (forall i, 0 <= i < 5 ->
       m_send_buffer s' !!
         Z.to_nat ((m_write_pos tail_logger + i) mod SEND_BUFFER_SIZE) =
       Some (str_at [x42; x43; x44; x45; x46] i)) /\
    (m_write_pos tail_logger + 5 <= SEND_BUFFER_SIZE ->
     m_send_buffer s' =
       linear_copy (m_send_buffer tail_logger) (m_write_pos tail_logger)
                   (msg_bytes [x42; x43; x44; x45; x46] 5)) /\
    (SEND_BUFFER_SIZE < m_write_pos tail_logger + 5 ->
     let k := Z.to_nat (SEND_BUFFER_SIZE - m_write_pos tail_logger) in
     m_send_buffer s' =
       linear_copy
         (linear_copy (m_send_buffer tail_logger) (m_write_pos tail_logger)
                      (take k (msg_bytes [x42; x43; x44; x45; x46] 5)))
         0 (drop k (msg_bytes [x42; x43; x44; x45; x46] 5))).
Proof.
  split; [exact wf_tail_logger|].
  assert (Hfit : 0 < 5 <= availableSpace tail_logger (m_write_pos tail_logger))
    by (vm_compute; split; [reflexivity|discriminate]).
  split; [exact Hfit|].
  exact (enqueue_copies_message true [x42; x43; x44; x45; x46] 5 tail_logger
           wf_tail_logger Hfit).
Defined.

(** C9, as the code behaves. When the reservation succeeds, [enqueue]
    advances [m_write_pos] circularly by [length] and leaves [m_read_pos],
    [m_missed_count], [m_enqueue_guard], [m_uart] and every storage byte
    outside the reserved range unchanged. [m_new_read_pos] and
    [m_is_sending] are unchanged, and no HAL call is made, when the call
    comes from an interrupt handler or while a transfer is in progress;
    otherwise the [process()] call that ends [enqueue] starts a transfer,
    which sets [m_is_sending] and records a new [m_new_read_pos]. *)
Theorem enqueue_frame in_isr str len s :
  wf s ->
  0 < len <= availableSpace s (m_write_pos s) ->
  exists s' cs,
    enqueue in_isr str len s = Some (s', cs) /\
    m_write_pos s' = (m_write_pos s + len) mod SEND_BUFFER_SIZE /\
    m_read_pos s' = m_read_pos s /\
    m_missed_count s' = m_missed_count s /\
    m_enqueue_guard s' = m_enqueue_guard s /\
    m_uart s' = m_uart s /\
    length (m_send_buffer s') = length (m_send_buffer s) /\
    (forall j : nat,
       Z.of_nat j < SEND_BUFFER_SIZE ->
       len <= ring_dist (m_write_pos s) (Z.of_nat j) ->
       m_send_buffer s' !! j = m_send_buffer s !! j) /\
    (m_is_sending s = true \/ in_isr = true ->
     m_new_read_pos s' = m_new_read_pos s /\
     m_is_sending s' = m_is_sending s /\ cs = []) /\
    (m_is_sending s = false -> in_isr = false -> m_enqueue_guard s = 0 ->
     m_is_sending s' = true /\
     m_new_read_pos s' =
       (if m_read_pos s <? m_write_pos s' then m_write_pos s' else 0) /\
     cs <> []).
Proof.
  intros Hwf Hlen.
  pose proof (fits_below_capacity s len Hwf (proj2 Hlen)) as Hcap.
  pose proof (availableSpace_ring s (m_write_pos s)
                (wf_read_pos s Hwf) (wf_write_pos s Hwf)) as Hav.
  destruct (enqueue_reserved_state in_isr str len s Hwf Hlen)
    as (s' & cs & Hrun & Hp & Hb & Hw & Hr & Hm & Hg & Hu).
  exists s', cs. destruct Hwf as [Hrp _ Hwpos Hbl _ _].
  conjuncts; try assumption.
  - rewrite Hb. apply ring_copy_length; rewrite ?msg_bytes_length;
      unfold SEND_BUFFER_SIZE in *; lia.
  - intros j Hj Hout. rewrite Hb, ring_copy_lookup;
      rewrite ?msg_bytes_length; try (unfold SEND_BUFFER_SIZE in *; lia).
    destruct (decide _) as [Hin|_]; [lia|reflexivity].
  - intros Hidle. rewrite process_idle in Hp.
    + injection Hp as -> ->. conjuncts; reflexivity.
    + cbn. destruct Hidle as [-> | ->]; [reflexivity|apply orb_true_r].
  - intros Hs -> Hg0. unfold process in Hp.
    cbn [m_is_sending set_send_buffer set_write_pos] in Hp.
    rewrite Hs in Hp. cbn [orb] in Hp. unfold startTransfer in Hp.
    cbn [m_write_pos m_read_pos m_enqueue_guard m_uart set_send_buffer
         set_write_pos set_is_sending set_new_read_pos] in Hp.
    rewrite Hg0 in Hp.
    destruct (Z.eqb_spec ((m_write_pos s + len) mod SEND_BUFFER_SIZE)
                (m_read_pos s)) as [Heq|_].
    { unfold ring_dist, SEND_BUFFER_SIZE in *. lia. }
    cbn [negb andb Z.eqb] in Hp. rewrite Hw.
    destruct (m_read_pos s <? (m_write_pos s + len) mod SEND_BUFFER_SIZE);
      injection Hp as -> ->; conjuncts; (reflexivity || discriminate).
Qed.

Lemma enqueue_frame_witness :
  wf tail_logger /\
  0 < 5 <= availableSpace tail_logger (m_write_pos tail_logger) /\
  exists s' cs,
    enqueue true [x42; x43; x44; x45; x46] 5 tail_logger = Some (s', cs) /\
    m_write_pos s' = (m_write_pos tail_logger + 5) mod SEND_BUFFER_SIZE /\
    m_read_pos s' = m_read_pos tail_logger /\
    m_missed_count s' = m_missed_count tail_logger /\
    m_enqueue_guard s' = m_enqueue_guard tail_logger /\
    m_uart s' = m_uart tail_logger /\
    length (m_send_buffer s') = length (m_send_buffer tail_logger) /\
    (forall j : nat,
       Z.of_nat j < SEND_BUFFER_SIZE ->
       5 <= ring_dist (m_write_pos tail_logger) (Z.of_nat j) ->
       m_send_buffer s' !! j = m_send_buffer tail_logger !! j) /\
    (m_is_sending tail_logger = true \/ true = true ->
     m_new_read_pos s' = m_new_read_pos tail_logger /\
     m_is_sending s' = m_is_sending tail_logger /\ cs = []) /\
    (m_is_sending tail_logger = false -> true = false ->
     m_enqueue_guard tail_logger = 0 ->
     m_is_sending s' = true /\
     m_new_read_pos s' =
       (if m_read_pos tail_logger <? m_write_pos s' then m_write_pos s' else 0) /\
     cs <> []).
Proof.
  split; [exact wf_tail_logger|].
  assert (Hfit : 0 < 5 <= availableSpace tail_logger (m_write_pos tail_logger))
    by (vm_compute; split; [reflexivity|discriminate]).
  split; [exact Hfit|].
  exact (enqueue_frame true [x42; x43; x44; x45; x46] 5 tail_logger
           wf_tail_logger Hfit).
Defined.

(** C9 as stated fails: a one-byte [enqueue] on the idle logger, called
    outside interrupt handlers, succeeds and also changes [m_new_read_pos]
    (and [m_is_sending]), because the call ends with [process()], which
    starts the transfer. *)
Lemma enqueue_changes_new_read_pos :
  0 < 1 <= availableSpace idle_logger (m_write_pos idle_logger) /\
  exists s' cs,
    enqueue false [x42] 1 idle_logger = Some (s', cs) /\
    m_write_pos s' <> m_write_pos idle_logger /\
    m_new_read_pos idle_logger = 0 /\ m_new_read_pos s' = 1 /\
    m_is_sending idle_logger = false /\ m_is_sending s' = true.
Proof.
  split; [vm_compute; split; [reflexivity|discriminate]|].
  eexists _, _. split; [vm_compute; reflexivity|].
  cbn. conjuncts; try reflexivity. lia.
Qed.

(** ** Reading the ring *)

Lemma ring_read_app buf pos (a b : nat) :
  ring_read buf pos (a + b) =
  ring_read buf pos a ++
  ring_read buf ((pos + Z.of_nat a) mod SEND_BUFFER_SIZE) b.
Proof.
  unfold ring_read. rewrite seq_app, map_app. f_equal.
  replace (seq (0 + a) b) with (map (Nat.add a) (seq 0 b))
    by (change (map ?f ?l) with (f <$> l); rewrite fmap_add_seq;
        f_equal; lia).
  rewrite map_map. apply map_ext. intros i.
  f_equal. unfold SEND_BUFFER_SIZE. lia.
Qed.

Lemma ring_read_ext buf1 buf2 pos n :
  (forall i : nat, (i < n)%nat ->
     byte_at buf1 ((pos + Z.of_nat i) mod SEND_BUFFER_SIZE) =
     byte_at buf2 ((pos + Z.of_nat i) mod SEND_BUFFER_SIZE)) ->
  ring_read buf1 pos n = ring_read buf2 pos n.
Proof.
  intros H. unfold ring_read. apply map_ext_in.
  intros i Hi. apply in_seq in Hi. apply H. lia.
Qed.

Lemma take_drop_ring_read buf pos (n : nat) :
  0 <= pos -> pos + Z.of_nat n <= SEND_BUFFER_SIZE ->
  Z.of_nat (length buf) = SEND_BUFFER_SIZE ->
  take n (drop (Z.to_nat pos) buf) = ring_read buf pos n.
Proof.
  intros Hp Hn Hb. apply list_eq. intros i. unfold ring_read.
  change (map ?f ?l) with (f <$> l). rewrite list_lookup_fmap.
  destruct (decide (i < n)%nat) as [Hi|Hi].
  - rewrite lookup_take_lt, lookup_drop, lookup_seq_lt by lia.
    cbn [fmap option_fmap option_map]. unfold byte_at.
    replace (Z.to_nat ((pos + Z.of_nat (0 + i)) mod SEND_BUFFER_SIZE))
      with (Z.to_nat pos + i)%nat by (unfold SEND_BUFFER_SIZE in *; lia).
    destruct (lookup_lt_is_Some_2 buf (Z.to_nat pos + i)) as [c Hc]; [lia|].
    rewrite Hc. reflexivity.
  - rewrite lookup_take_ge, lookup_seq_ge by lia. reflexivity.
Qed.

Lemma ring_read_msg str len buf pos :
  0 <= pos < SEND_BUFFER_SIZE ->
  Z.of_nat (length buf) = SEND_BUFFER_SIZE ->
  0 <= len < SEND_BUFFER_SIZE ->
  ring_read (ring_copy buf pos (msg_bytes str len)) pos (Z.to_nat len) =
  msg_bytes str len.
Proof.
  intros Hp Hb Hlen. unfold ring_read, msg_bytes at 2.
  apply map_ext_in. intros i Hi. apply in_seq in Hi.
  unfold byte_at.
  rewrite ring_copy_lookup; rewrite ?msg_bytes_length;
    try (unfold SEND_BUFFER_SIZE in *; lia).
  unfold ring_dist.
  destruct (decide _) as [_|Hout]; [|unfold SEND_BUFFER_SIZE in *; lia].
  rewrite msg_bytes_lookup by (unfold SEND_BUFFER_SIZE in *; lia).
  cbn [default from_option id]. f_equal. unfold SEND_BUFFER_SIZE in *. lia.
Qed.

Lemma ring_read_frame data buf pos start (n : nat) :
  0 <= pos < SEND_BUFFER_SIZE ->
  0 <= start < SEND_BUFFER_SIZE ->
  Z.of_nat (length buf) = SEND_BUFFER_SIZE ->
  Z.of_nat n = ring_dist start pos ->
  Z.of_nat n + Z.of_nat (length data) < SEND_BUFFER_SIZE ->
  ring_read (ring_copy buf pos data) start n = ring_read buf start n.
Proof.
  intros Hp Hs Hb Hn Hroom. apply ring_read_ext. intros i Hi.
  unfold byte_at. rewrite ring_copy_lookup;
    try (unfold SEND_BUFFER_SIZE in *; lia).
  destruct (decide _) as [Hin|_]; [|reflexivity].
  unfold ring_dist, SEND_BUFFER_SIZE in *. lia.
Qed.

(** ** Between two entries into the logger *)

Lemma quiescent_init huart : quiescent (fst (init huart logger0)).
Proof.
  split; [apply wf_init|reflexivity| |reflexivity].
  cbn. unfold ring_dist, SEND_BUFFER_SIZE. lia.
Qed.

(** Started with no transfer in flight, [startTransfer] hands over a prefix
    of the pending bytes and keeps the rest pending. *)
Lemma startTransfer_quiescent s :
  wf s -> m_enqueue_guard s = 0 -> m_new_read_pos s = m_read_pos s ->
  quiescent (fst (startTransfer s)) /\
  calls_bytes (m_send_buffer (fst (startTransfer s))) (snd (startTransfer s))
    ++ pending (fst (startTransfer s)) = pending s.
Proof.
  intros Hwf Hg Hn. pose proof Hwf as [Hr Hnr Hw Hb Hgu Hm].
  unfold startTransfer. rewrite Hg.
  destruct (Z.eqb_spec (m_write_pos s) (m_read_pos s)) as [Heq|Hne];
    cbn [negb andb Z.eqb].
  - cbn [fst snd]. split.
    + split; cbn; [split; cbn; assumption|assumption| |auto].
      rewrite Hn. unfold ring_dist, SEND_BUFFER_SIZE. lia.
    + reflexivity.
  - cbn [m_read_pos m_uart set_is_sending set_new_read_pos].
    destruct (Z.ltb_spec (m_read_pos s) (m_write_pos s)) as [Hlt|Hge];
      cbn [fst snd].
    + split.
      * split; cbn;
          [split; cbn; first [assumption|unfold SEND_BUFFER_SIZE in *; lia]
          |assumption|lia|discriminate].
      * unfold calls_bytes, pending.
        cbn [map concat call_bytes app m_send_buffer m_new_read_pos m_write_pos
             set_new_read_pos set_is_sending].
        rewrite ?List.app_nil_r, Hn.
        replace (Z.to_nat (ring_dist (m_write_pos s) (m_write_pos s))) with 0%nat
          by (unfold ring_dist, SEND_BUFFER_SIZE; lia).
        cbn [ring_read seq map]. rewrite List.app_nil_r.
        replace (ring_dist (m_read_pos s) (m_write_pos s))
          with (m_write_pos s - m_read_pos s)
          by (unfold ring_dist, SEND_BUFFER_SIZE in *; lia).
        rewrite to_u16_id by (unfold is_u16, SEND_BUFFER_SIZE in *; lia).
        apply take_drop_ring_read; lia.
    + split.
      * split; cbn;
          [split; cbn; first [assumption|unfold SEND_BUFFER_SIZE in *; lia]
          |assumption| |discriminate].
        unfold ring_dist, SEND_BUFFER_SIZE in *. lia.
      * unfold calls_bytes, pending.
        cbn [map concat call_bytes app m_send_buffer m_new_read_pos m_write_pos
             set_new_read_pos set_is_sending].
        rewrite ?List.app_nil_r, Hn.
        rewrite to_u16_id by (unfold is_u16, SEND_BUFFER_SIZE in *; lia).
        replace (Z.to_nat (ring_dist (m_read_pos s) (m_write_pos s)))
          with (Z.to_nat (SEND_BUFFER_SIZE - m_read_pos s) +
                Z.to_nat (ring_dist 0 (m_write_pos s)))%nat
          by (unfold ring_dist, SEND_BUFFER_SIZE in *; lia).
        rewrite ring_read_app.
        rewrite take_drop_ring_read by lia.
        f_equal. f_equal. unfold SEND_BUFFER_SIZE in *. lia.
Qed.

Lemma process_quiescent in_isr s :
  quiescent s ->
  quiescent (fst (process in_isr s)) /\
  m_read_pos (fst (process in_isr s)) = m_read_pos s /\
  calls_bytes (m_send_buffer (fst (process in_isr s))) (snd (process in_isr s))
    ++ pending (fst (process in_isr s)) = pending s.
Proof.
  intros Hq. unfold process.
  destruct (m_is_sending s) eqn:Hs; cbn [orb].
  - cbn [fst snd]. auto.
  - destruct in_isr; cbn [fst snd]; [auto|].
    destruct Hq as [Hwf Hg Hbt Hidle].
    destruct (startTransfer_quiescent s Hwf Hg (Hidle Hs)) as [Hq' Hbytes].
    pose proof (startTransfer_fields s) as Hf. cbn in Hf.
    conjuncts; [exact Hq'|tauto|exact Hbytes].
Qed.

Lemma transferCompletedCallback_quiescent huart s :
  quiescent s ->
  let r := transferCompletedCallback huart s in
  quiescent (fst r) /\
  (m_read_pos (fst r) = m_read_pos s \/ m_read_pos (fst r) = m_new_read_pos s) /\
  calls_bytes (m_send_buffer (fst r)) (snd r) ++ pending (fst r) = pending s.
Proof.
  intros Hq. unfold transferCompletedCallback.
  destruct (huart =? m_uart s); cbn zeta.
  - destruct Hq as [Hwf Hg Hbt Hidle].
    assert (Hwf' : wf (set_read_pos (m_new_read_pos s) s))
      by (destruct Hwf; split; cbn; assumption).
    destruct (startTransfer_quiescent (set_read_pos (m_new_read_pos s) s)
                Hwf' Hg eq_refl) as [Hq' Hbytes].
    pose proof (startTransfer_fields (set_read_pos (m_new_read_pos s) s)) as Hf.
    cbn in Hf. conjuncts; [exact Hq'|right; tauto|exact Hbytes].
  - cbn [fst snd]. auto.
Qed.

Lemma quiescent_room s len :
  quiescent s ->
  0 <= len <= availableSpace s (m_write_pos s) ->
  ring_dist (m_new_read_pos s) (m_write_pos s) + len < SEND_BUFFER_SIZE /\
  ring_dist (m_read_pos s) ((m_write_pos s + len) mod SEND_BUFFER_SIZE) =
    ring_dist (m_read_pos s) (m_write_pos s) + len /\
  ring_dist (m_new_read_pos s) ((m_write_pos s + len) mod SEND_BUFFER_SIZE) =
    ring_dist (m_new_read_pos s) (m_write_pos s) + len.
Proof.
  intros [Hwf Hg Hbt Hidle] Hlen.
  pose proof (availableSpace_ring s (m_write_pos s)
                (wf_read_pos s Hwf) (wf_write_pos s Hwf)) as Hav.
  destruct Hwf as [Hr Hn Hw _ _ _].
  unfold ring_dist, SEND_BUFFER_SIZE in *. lia.
Qed.

Lemma enqueue_quiescent in_isr str len s :
  quiescent s -> 0 <= len ->
  exists s' cs,
    enqueue in_isr str len s = Some (s', cs) /\
    quiescent s' /\
    m_read_pos s' = m_read_pos s /\
    calls_bytes (m_send_buffer s') cs ++ pending s' =
      pending s ++
      (if len <=? availableSpace s (m_write_pos s)
       then msg_bytes str len else []).
Proof.
  intros Hq Hlen. pose proof Hq as [Hwf Hg Hbt Hidle].
  destruct (decide (0 < len <= availableSpace s (m_write_pos s))) as [Hfit|Hno].
  - rewrite enqueue_reserved by assumption.
    rewrite advancePos_mod.
    set (X := set_send_buffer _ _).
    destruct (quiescent_room s len Hq) as (Hroom & Hd1 & Hd2); [lia|].
    pose proof (fits_below_capacity s len Hwf (proj2 Hfit)) as Hcap.
    assert (HqX : quiescent X).
    { destruct Hwf as [Hr Hn Hw Hb Hgu Hm].
      split; [split| | |]; cbn; try assumption.
      - unfold SEND_BUFFER_SIZE. lia.
      - rewrite ring_copy_length; try assumption.
        rewrite msg_bytes_length. lia.
      - lia. }
    assert (HpX : pending X = pending s ++ msg_bytes str len).
    { unfold pending, X.
      cbn [m_send_buffer m_new_read_pos m_write_pos set_send_buffer set_write_pos].
      rewrite Hd2.
      replace (Z.to_nat (ring_dist (m_new_read_pos s) (m_write_pos s) + len))
        with (Z.to_nat (ring_dist (m_new_read_pos s) (m_write_pos s)) +
              Z.to_nat len)%nat
        by (unfold ring_dist, SEND_BUFFER_SIZE; lia).
      rewrite ring_read_app. destruct Hwf as [Hr Hn Hw Hb Hgu Hm]. f_equal.
      - apply ring_read_frame; try assumption.
        + unfold ring_dist, SEND_BUFFER_SIZE. lia.
        + rewrite msg_bytes_length. unfold ring_dist, SEND_BUFFER_SIZE in *. lia.
      - replace ((m_new_read_pos s +
                  Z.of_nat (Z.to_nat (ring_dist (m_new_read_pos s) (m_write_pos s))))
                 mod SEND_BUFFER_SIZE)
          with (m_write_pos s)
          by (unfold ring_dist, SEND_BUFFER_SIZE in *; lia).
        apply ring_read_msg; try assumption. lia. }
    destruct (process_quiescent in_isr X HqX) as (Hq' & Hr' & Hbytes).
    destruct (process in_isr X) as [s' cs]. cbn [fst snd] in *.
    exists s', cs. conjuncts; try assumption; try reflexivity.
    rewrite Hbytes, HpX.
    destruct (Z.leb_spec len (availableSpace s (m_write_pos s))); [reflexivity|lia].
  - assert (Hmiss : len = 0 \/ availableSpace s (m_write_pos s) < len) by lia.
    rewrite enqueue_missed by assumption.
    set (Y := set_missed_count _ _).
    assert (HqY : quiescent Y).
    { destruct Hwf as [Hr Hn Hw Hb Hgu Hm].
      split; [split| | |]; cbn; try assumption. apply to_u16_range. }
    destruct (process_quiescent in_isr Y HqY) as (Hq' & Hr' & Hbytes).
    destruct (process in_isr Y) as [s' cs]. cbn [fst snd] in *.
    exists s', cs. conjuncts; try assumption; try reflexivity.
    rewrite Hbytes.
    change (pending Y) with (pending s).
    destruct (Z.leb_spec len (availableSpace s (m_write_pos s)));
      [|symmetry; apply List.app_nil_r].
    destruct Hmiss as [-> |]; [symmetry; apply List.app_nil_r|lia].
Qed.

(** One entry into the logger from a quiescent state: the call returns, the
    state is quiescent again, the read cursor keeps its value or takes the
    pending one, and the bytes handed to the transmitter followed by what is
    still pending are what was pending followed by the message, if one was
    accepted. *)
Lemma step_quiescent s ev :
  quiescent s -> event_typed ev ->
  exists s' cs,
    step s ev = Some (s', cs) /\
    quiescent s' /\
    (m_read_pos s' = m_read_pos s \/ m_read_pos s' = m_new_read_pos s) /\
    calls_bytes (m_send_buffer s') cs ++ pending s' =
      pending s ++ (if event_fits s ev then event_msg ev else []).
Proof.
  intros Hq Hty. destruct ev as [in_isr str len|in_isr|huart];
    cbn [step event_fits event_msg event_typed] in *.
  - destruct (enqueue_quiescent in_isr str len s Hq) as (s' & cs & H1 & H2 & H3 & H4).
    { unfold is_u16 in Hty. lia. }
    exists s', cs. conjuncts; try assumption; [left; exact H3|].
    rewrite H4. f_equal.
    destruct (Z.leb_spec 0 len); [reflexivity|unfold is_u16 in Hty; lia].
  - destruct (process_quiescent in_isr s Hq) as (H2 & H3 & H4).
    destruct (process in_isr s) as [s' cs]. cbn [fst snd] in *.
    exists s', cs. conjuncts; try assumption; [reflexivity|left; exact H3|].
    rewrite List.app_nil_r. exact H4.
  - destruct (transferCompletedCallback_quiescent huart s Hq) as (H2 & H3 & H4).
    destruct (transferCompletedCallback huart s) as [s' cs]. cbn [fst snd] in *.
    exists s', cs. conjuncts; try assumption; [reflexivity|].
    rewrite List.app_nil_r. exact H4.
Qed.

(** ** Reachable states and the read cursor *)

Lemma reached_quiescent huart hist s : reached huart hist s -> quiescent s.
Proof.
  induction 1 as [|hist s ev s' cs _ IH Hty Hstep].
  - apply quiescent_init.
  - destruct (step_quiescent s ev IH Hty) as (s2 & cs2 & Hs2 & Hq2 & _).
    rewrite Hstep in Hs2. injection Hs2 as <- <-. exact Hq2.
Qed.

(** C6. Along every run from the initialized logger, the read cursor of a
    state other than the initial one equals the [m_new_read_pos] of an
    earlier state of the run; the pending read cursor is never further from
    [m_read_pos] than [m_write_pos] is; and each operation either keeps
    [m_read_pos] or sets it to the pending read cursor, moving it forward by
    no more than the number of bytes queued between [m_read_pos] and
    [m_write_pos]. *)
Theorem read_pos_follows_pending huart hist s :
  reached huart hist s ->
  (hist = [] \/ exists s0, In s0 hist /\ m_new_read_pos s0 = m_read_pos s) /\
  ring_dist (m_read_pos s) (m_new_read_pos s) <=
    ring_dist (m_read_pos s) (m_write_pos s) /\
  (forall ev s' cs,
     event_typed ev ->
     step s ev = Some (s', cs) ->
     (m_read_pos s' = m_read_pos s \/ m_read_pos s' = m_new_read_pos s) /\
     ring_dist (m_read_pos s) (m_read_pos s') <=
       ring_dist (m_read_pos s) (m_write_pos s)).
Proof.
  intros Hreach. split; [|split].
  - induction Hreach as [|hist s ev s' cs Hreach IH Hty Hstep]; [left; reflexivity|].
    right.
    destruct (step_quiescent s ev (reached_quiescent _ _ _ Hreach) Hty)
      as (s2 & cs2 & Hs2 & _ & Hrp & _).
    rewrite Hstep in Hs2. injection Hs2 as <- <-.
    destruct Hrp as [Hkeep|Hadopt].
    + destruct IH as [->|(s0 & Hin & Heq)].
      * exists s. split; [left; reflexivity|].
        inversion Hreach; subst. rewrite Hkeep. reflexivity.
      * exists s0. split; [right; exact Hin|congruence].
    + exists s. split; [left; reflexivity|congruence].
  - apply (q_between s (reached_quiescent _ _ _ Hreach)).
  - intros ev s' cs Hty Hstep.
    pose proof (reached_quiescent _ _ _ Hreach) as Hq.
    destruct (step_quiescent s ev Hq Hty) as (s2 & cs2 & Hs2 & _ & Hrp & _).
    rewrite Hstep in Hs2. injection Hs2 as <- <-.
    split; [exact Hrp|].
    destruct Hrp as [-> | ->].
    + unfold ring_dist, SEND_BUFFER_SIZE. lia.
    + apply (q_between s Hq).
Qed.

Lemma read_pos_follows_pending_witness :
  reached 1 [one_byte_sending; idle_logger] one_byte_sent /\
  ([one_byte_sending; idle_logger] = [] \/
   exists s0, In s0 [one_byte_sending; idle_logger] /\
     m_new_read_pos s0 = m_read_pos one_byte_sent).
Proof.
  assert (Hreach : reached 1 [one_byte_sending; idle_logger] one_byte_sent).
  { apply (reached_step 1 [idle_logger] one_byte_sending (EvTxComplete 1)
             one_byte_sent []).
    - apply (reached_step 1 [] idle_logger (EvEnqueue false [x42] 1)
               one_byte_sending
               [HAL_UART_Transmit_DMA 1 0 1; HAL_DMA_DISABLE_IT_HT 1]).
      + apply reached_init.
      + unfold event_typed, is_u16. lia.
      + vm_compute. reflexivity.
    - exact I.
    - vm_compute. reflexivity. }
  split; [exact Hreach|].
  exact (proj1 (read_pos_follows_pending 1 _ _ Hreach)).
Defined.

(** ** The transmitted byte stream *)

Lemma step_uart s ev s' cs : step s ev = Some (s', cs) -> m_uart s' = m_uart s.
Proof.
  destruct ev as [in_isr str len|in_isr|huart]; cbn [step]; intros Hstep.
  - apply enqueue_fields in Hstep. tauto.
  - injection Hstep as Hp. pose proof (process_fields in_isr s) as Hf.
    rewrite Hp in Hf. cbn in Hf. tauto.
  - injection Hstep as Hp. unfold transferCompletedCallback in Hp.
    destruct (huart =? m_uart s).
    + pose proof (startTransfer_fields (set_read_pos (m_new_read_pos s) s)) as Hf.
      rewrite Hp in Hf. cbn in Hf. tauto.
    + congruence.
Qed.

Lemma event_fits_typed s ev : event_fits s ev = true -> event_typed ev.
Proof.
  destruct ev as [in_isr str len|in_isr|huart]; cbn; [|trivial|trivial].
  intros H. apply andb_true_iff in H as [H0 H1].
  apply Z.leb_le in H0, H1.
  assert (availableSpace s (m_write_pos s) < 65536).
  { unfold availableSpace, to_u16. destruct (_ <=? _); lia. }
  unfold is_u16. lia.
Qed.

(** A run whose enqueues all fit returns, and what it handed to the
    transmitter followed by what is still pending is what was pending at
    the start followed by the messages, in call order. *)
Lemma run_fits evs : forall s,
  quiescent s ->
  enqueues_fit s evs = true ->
  exists s' out,
    run s evs = Some (s', out) /\
    quiescent s' /\
    m_uart s' = m_uart s /\
    out ++ pending s' = pending s ++ messages evs.
Proof.
  induction evs as [|ev rest IH]; intros s Hq Hfit.
  - exists s, []. cbn. rewrite List.app_nil_r. auto.
  - cbn [enqueues_fit] in Hfit. apply andb_true_iff in Hfit as [Hev Hrest].
    destruct (step_quiescent s ev Hq (event_fits_typed s ev Hev))
      as (s1 & cs & Hstep & Hq1 & _ & Hbytes).
    rewrite Hstep in Hrest. rewrite Hev in Hbytes.
    destruct (IH s1 Hq1 Hrest) as (s2 & out & Hrun & Hq2 & Hu2 & Hout).
    exists s2, (calls_bytes (m_send_buffer s1) cs ++ out).
    cbn [run]. rewrite Hstep. cbn [mbind option_bind]. rewrite Hrun.
    cbn [mbind option_bind]. conjuncts; [reflexivity|exact Hq2| |].
    + rewrite Hu2. eapply step_uart, Hstep.
    + unfold messages. cbn [map concat]. fold (messages rest).
      rewrite <- List.app_assoc, Hout, !List.app_assoc, Hbytes. reflexivity.
Qed.

Lemma callback_stage s :
  quiescent s ->
  (stage (fst (transferCompletedCallback (m_uart s) s)) <= pred (stage s))%nat.
Proof.
  intros [Hwf Hg Hbt Hidle]. destruct Hwf as [Hr Hn Hw _ _ _].
  unfold transferCompletedCallback. rewrite Z.eqb_refl.
  unfold startTransfer.
  cbn [m_write_pos m_read_pos m_enqueue_guard m_uart set_read_pos
       set_is_sending set_new_read_pos].
  rewrite Hg. unfold stage.
  destruct (Z.eqb_spec (m_write_pos s) (m_new_read_pos s)) as [Heq|Hne];
    cbn [negb andb Z.eqb fst].
  - cbn [m_new_read_pos m_write_pos m_is_sending set_is_sending set_read_pos].
    destruct (Z.eqb_spec (m_new_read_pos s) (m_write_pos s)); lia.
  - destruct (Z.eqb_spec (m_new_read_pos s) (m_write_pos s)) as [|_]; [congruence|].
    destruct (Z.ltb_spec (m_new_read_pos s) (m_write_pos s));
      cbn [fst m_new_read_pos m_write_pos m_is_sending set_is_sending
           set_read_pos set_new_read_pos].
    + rewrite Z.eqb_refl. cbn. lia.
    + destruct (Z.eqb_spec 0 (m_write_pos s)); [cbn; lia|].
      destruct (Z.ltb_spec 0 (m_write_pos s)); cbn; lia.
Qed.

Lemma stage_zero s :
  quiescent s -> stage s = 0%nat ->
  m_is_sending s = false /\ m_read_pos s = m_write_pos s /\ pending s = [].
Proof.
  intros [Hwf Hg Hbt Hidle]. unfold stage.
  destruct (Z.eqb_spec (m_new_read_pos s) (m_write_pos s)) as [Heq|Hne].
  - destruct (m_is_sending s); [discriminate|]. intros _.
    conjuncts; [reflexivity|rewrite <- Hidle by reflexivity; exact Heq|].
    unfold pending. rewrite Heq.
    replace (ring_dist (m_write_pos s) (m_write_pos s)) with 0
      by (unfold ring_dist, SEND_BUFFER_SIZE; lia).
    reflexivity.
  - destruct (_ <? _); discriminate.
Qed.

Lemma stage_bound s : (stage s <= 3)%nat.
Proof.
  unfold stage. destruct (_ =? _); [destruct (m_is_sending s)|destruct (_ <? _)]; lia.
Qed.

Lemma callback_uart huart s :
  m_uart (fst (transferCompletedCallback huart s)) = m_uart s.
Proof.
  unfold transferCompletedCallback. destruct (huart =? m_uart s); [|reflexivity].
  pose proof (startTransfer_fields (set_read_pos (m_new_read_pos s) s)) as Hf.
  cbn in Hf. tauto.
Qed.

(** One [process()] from the main loop and three completion interrupts hand
    everything pending to the transmitter and leave the logger idle. *)
Lemma drain_empties s :
  quiescent s ->
  exists s' out,
    run s (drain s) = Some (s', out) /\
    out = pending s /\
    m_is_sending s' = false /\ m_read_pos s' = m_write_pos s'.
Proof.
  intros Hq. unfold drain. cbn [run step mbind option_bind].
  destruct (process_quiescent false s Hq) as (Hq1 & _ & Hb1).
  pose proof (process_fields false s) as Hf1. cbn in Hf1.
  destruct (process false s) as [s1 c1]. cbn [fst snd] in *.
  assert (Hu1 : m_uart s = m_uart s1) by (symmetry; tauto).
  rewrite Hu1.
  destruct (transferCompletedCallback_quiescent (m_uart s1) s1 Hq1) as (Hq2 & _ & Hb2).
  pose proof (callback_stage s1 Hq1) as Hst2.
  pose proof (callback_uart (m_uart s1) s1) as Hu2.
  destruct (transferCompletedCallback (m_uart s1) s1) as [s2 c2].
  cbn [fst snd] in *. rewrite <- Hu2.
  destruct (transferCompletedCallback_quiescent (m_uart s2) s2 Hq2) as (Hq3 & _ & Hb3).
  pose proof (callback_stage s2 Hq2) as Hst3.
  pose proof (callback_uart (m_uart s2) s2) as Hu3.
  destruct (transferCompletedCallback (m_uart s2) s2) as [s3 c3].
  cbn [fst snd] in *. rewrite <- Hu3.
  destruct (transferCompletedCallback_quiescent (m_uart s3) s3 Hq3) as (Hq4 & _ & Hb4).
  pose proof (callback_stage s3 Hq3) as Hst4.
  destruct (transferCompletedCallback (m_uart s3) s3) as [s4 c4].
  cbn [fst snd] in *.
  pose proof (stage_bound s1) as Hbound.
  destruct (stage_zero s4 Hq4) as (Hidle & Hempty & Hpend); [lia|].
  eexists _, _. split; [reflexivity|]. conjuncts; [|exact Hidle|exact Hempty].
  rewrite Hpend, List.app_nil_r in Hb4.
  rewrite <- Hb1, <- Hb2, <- Hb3, <- Hb4. rewrite List.app_nil_r. reflexivity.
Qed.

(** C1. Take any sequence of [enqueue], [process] and transmit-complete
    entries in which every [enqueue] is called with a length that is at
    most the available space at the time of the call. The run returns; the
    bytes handed to the DMA so far, followed by the bytes still pending in
    the ring, are exactly the messages in call order; and after one
    [process()] from the main loop and the completion interrupts of the
    chained transfers, the bytes handed to the DMA are exactly the
    concatenation of the messages in call order, each once, and the ring is
    empty. *)
Theorem enqueued_messages_transmitted huart evs :
  enqueues_fit (fst (init huart logger0)) evs = true ->
  exists s out,
    run (fst (init huart logger0)) evs = Some (s, out) /\
    out ++ pending s = messages evs /\
    exists s' out',
      run s (drain s) = Some (s', out') /\
      out ++ out' = messages evs /\
      m_is_sending s' = false /\ m_read_pos s' = m_write_pos s'.
Proof.
  intros Hfit.
  destruct (run_fits evs _ (quiescent_init huart) Hfit)
    as (s & out & Hrun & Hq & _ & Hout).
  exists s, out. conjuncts; [exact Hrun|exact Hout|].
  destruct (drain_empties s Hq) as (s' & out' & Hdrain & -> & Hidle & Hempty).
  exists s', (pending s). conjuncts; assumption.
Qed.

Lemma enqueued_messages_transmitted_witness :
  enqueues_fit (fst (init 1 logger0)) example_events = true /\
  exists s out,
    run (fst (init 1 logger0)) example_events = Some (s, out) /\
    out ++ pending s = messages example_events /\
    exists s' out',
      run s (drain s) = Some (s', out') /\
      out ++ out' = messages example_events /\
      m_is_sending s' = false /\ m_read_pos s' = m_write_pos s'.
Proof.
  split; [vm_compute; reflexivity|].
  apply (enqueued_messages_transmitted 1 example_events).
  vm_compute. reflexivity.
Defined.

(** The example run, evaluated: 400 bytes are handed to the DMA during the
    run, the third message is pending across the end of storage, and the
    drain sends it in two transfers. *)
Example example_events_run :
  exists s out out' s',
    run idle_logger example_events = Some (s, out) /\
    out = replicate 200 x41 ++ replicate 200 x42 /\
    m_read_pos s = 200 /\ m_new_read_pos s = 400 /\ m_write_pos s = 88 /\
    pending s = replicate 200 x43 /\
    run s (drain s) = Some (s', out') /\
    out' = replicate 200 x43 /\
    m_read_pos s' = 88 /\ m_missed_count s' = 0.
Proof.
  eexists _, _, _, _.
  split; [vm_compute; reflexivity|].
  split; [vm_compute; reflexivity|].
  split; [reflexivity|]. split; [reflexivity|]. split; [reflexivity|].
  split; [vm_compute; reflexivity|].
  split; [vm_compute; reflexivity|].
  split; [vm_compute; reflexivity|].
  split; reflexivity.
Qed.

(** ** Remarks on the copy and on transfers in flight *)

(** When the destination ends exactly at the end of storage, [enqueue]
    takes its two-loop branch ([new_write_pos] is 0), and the second loop
    copies nothing. *)
Lemma second_loop_empty_at_boundary str len buf1 wp :
  wp + len = SEND_BUFFER_SIZE ->
  copy_while len str buf1 0 (SEND_BUFFER_SIZE - wp) =
  Some (buf1, 0, SEND_BUFFER_SIZE - wp).
Proof.
  intros H. unfold copy_while.
  replace (Z.to_nat (len - (SEND_BUFFER_SIZE - wp))) with 0%nat by lia.
  reflexivity.
Qed.

(** An [enqueue] never touches the queued bytes between [m_read_pos] and
    [m_write_pos], in particular not the range of a transfer in flight: the
    DMA reads the same bytes whenever it reads them before completion. *)
Lemma enqueue_keeps_queued_bytes in_isr str len s s' cs :
  quiescent s -> 0 <= len ->
  enqueue in_isr str len s = Some (s', cs) ->
  ring_read (m_send_buffer s') (m_read_pos s)
            (Z.to_nat (ring_dist (m_read_pos s) (m_write_pos s))) =
  ring_read (m_send_buffer s) (m_read_pos s)
            (Z.to_nat (ring_dist (m_read_pos s) (m_write_pos s))).
Proof.
  intros Hq Hlen Hrun. pose proof Hq as [Hwf Hg Hbt Hidle].
  destruct (decide (0 < len <= availableSpace s (m_write_pos s))) as [Hfit|Hno].
  - destruct (enqueue_reserved_state in_isr str len s Hwf Hfit)
      as (s2 & cs2 & Hrun2 & _ & Hb & _).
    rewrite Hrun in Hrun2. injection Hrun2 as <- <-. rewrite Hb.
    pose proof (availableSpace_ring s (m_write_pos s)
                  (wf_read_pos s Hwf) (wf_write_pos s Hwf)) as Hav.
    destruct Hwf as [Hr Hn Hw Hbl _ _].
    apply ring_read_frame; try assumption.
    + unfold ring_dist, SEND_BUFFER_SIZE. lia.
    + rewrite msg_bytes_length. unfold ring_dist, SEND_BUFFER_SIZE in *. lia.
  - rewrite enqueue_missed in Hrun by (assumption || lia).
    injection Hrun as Hp.
    match type of Hp with
    | process _ ?x = _ => pose proof (process_fields in_isr x) as Hf
    end.
    rewrite Hp in Hf. cbn in Hf.
    destruct Hf as (_ & _ & -> & _). reflexivity.
Qed.

(** ** The example states are reachable *)

Lemma init_missed_count huart s :
  m_missed_count (fst (init huart s)) = m_missed_count s.
Proof. reflexivity. Qed.

Lemma run_reached huart evs : forall hist s s' out,
  reached huart hist s ->
  Forall event_typed evs ->
  run s evs = Some (s', out) ->
  exists hist', reached huart hist' s'.
Proof.
  induction evs as [|ev rest IH]; intros hist s s' out Hreach Hty Hrun.
  - injection Hrun as <- _. exists hist. exact Hreach.
  - inversion Hty as [|? ? Hev Hrest]; subst.
    cbn [run] in Hrun.
    destruct (step s ev) as [[s1 cs]|] eqn:Hstep; [|discriminate].
    cbn [mbind option_bind] in Hrun.
    destruct (run s1 rest) as [[s2 out2]|] eqn:Hrun2; [|discriminate].
    injection Hrun as <- _.
    apply (IH (s :: hist) s1 s2 out2); [|exact Hrest|exact Hrun2].
    apply (reached_step huart hist s ev s1 cs); assumption.
Qed.

Lemma Forall_typed_replicate n ev :
  event_typed ev -> Forall event_typed (replicate n ev).
Proof. intros H. induction n; cbn; constructor; assumption. Qed.

Lemma full_logger_reachable : exists hist, reached 1 hist full_logger.
Proof.
  apply (run_reached 1 fill_then_drop [] idle_logger full_logger []).
  - apply reached_init.
  - unfold fill_then_drop. apply Forall_app. split.
    + repeat constructor; unfold is_u16; lia.
    + apply Forall_typed_replicate. unfold event_typed, is_u16. lia.
  - vm_compute. reflexivity.
Qed.

Lemma empty_logger_max_missed_reachable :
  exists hist, reached 1 hist empty_logger_max_missed.
Proof.
  apply (run_reached 1 zero_length_calls [] idle_logger
           empty_logger_max_missed []).
  - apply reached_init.
  - apply Forall_typed_replicate. unfold event_typed, is_u16. lia.
  - vm_compute. reflexivity.
Qed.

(** * Message formatting *)

(** ** Characters and array accesses *)

Lemma char_code_char_of z : char_code (char_of z) = z mod 256.
Proof.
  unfold char_code, char_of.
  destruct (Strings.Byte.of_N (Z.to_N (z mod 256))) as [b|] eqn:Hb.
  - apply Strings.Byte.to_of_N in Hb. cbn [default from_option id].
    rewrite Hb. lia.
  - apply Strings.Byte.of_N_None_iff in Hb. lia.
Qed.

Lemma char_code_range c : 0 <= char_code c < 256.
Proof.
  unfold char_code. pose proof (Strings.Byte.to_N_bounded c). lia.
Qed.

Lemma digit_char_code d : 0 <= d < 10 -> char_code (char_of (d + 48)) = d + 48.
Proof. intros H. rewrite char_code_char_of. lia. Qed.

Lemma poke_in mem idx c :
  0 <= idx < Z.of_nat (length mem) ->
  poke mem idx c = Some (<[Z.to_nat idx := c]> mem).
Proof.
  intros H. unfold poke.
  destruct (Z.leb_spec 0 idx); [|lia].
  destruct (Z.ltb_spec idx (Z.of_nat (length mem))); [|lia].
  reflexivity.
Qed.

Lemma poke_out mem idx c :
  Z.of_nat (length mem) <= idx -> poke mem idx c = None.
Proof.
  intros H. unfold poke.
  destruct (Z.ltb_spec idx (Z.of_nat (length mem))); [lia|].
  rewrite andb_false_r. reflexivity.
Qed.


Lemma linear_copy_nil mem pos : linear_copy mem pos [] = mem.
Proof.
  unfold linear_copy. cbn [app length]. rewrite Nat.add_0_r. apply take_drop.
Qed.

Lemma linear_copy_cons mem pos c text :
  0 <= pos ->
  pos + 1 + Z.of_nat (length text) <= Z.of_nat (length mem) ->
  linear_copy (<[Z.to_nat pos := c]> mem) (pos + 1) text =
  linear_copy mem pos (c :: text).
Proof.
  intros Hp Hroom. apply list_eq. intros j.
  rewrite !linear_copy_lookup by (rewrite ?length_insert; cbn [length]; lia).
  cbn [length].
  destruct (decide (Z.to_nat (pos + 1) <= j < Z.to_nat (pos + 1) + length text)%nat).
  - destruct (decide _); [|lia].
    replace (j - Z.to_nat pos)%nat with (S (j - Z.to_nat (pos + 1))) by lia.
    reflexivity.
  - destruct (decide (j = Z.to_nat pos)) as [->|Hne].
    + rewrite list_lookup_insert_eq by lia.
      destruct (decide _); [|lia]. rewrite Nat.sub_diag. reflexivity.
    + rewrite list_lookup_insert_ne by lia.
      destruct (decide _); [lia|reflexivity].
Qed.

Lemma linear_copy_app mem pos text1 text2 :
  0 <= pos ->
  pos + Z.of_nat (length text1) + Z.of_nat (length text2) <= Z.of_nat (length mem) ->
  linear_copy (linear_copy mem pos text1) (pos + Z.of_nat (length text1)) text2 =
  linear_copy mem pos (text1 ++ text2).
Proof.
  intros Hp Hroom. apply list_eq. intros j.
  rewrite !linear_copy_lookup;
    rewrite ?linear_copy_length, ?length_app; try lia.
  destruct (decide (Z.to_nat (pos + Z.of_nat (length text1)) <= j <
                    Z.to_nat (pos + Z.of_nat (length text1)) + length text2)%nat).
  - destruct (decide _); [|lia].
    rewrite lookup_app_r by lia. f_equal. lia.
  - destruct (decide (Z.to_nat pos <= j < Z.to_nat pos + length text1)%nat).
    + destruct (decide _); [|lia]. rewrite lookup_app_l by lia. reflexivity.
    + destruct (decide _); [lia|reflexivity].
Qed.

Lemma linear_copy_split mem pos text :
  0 <= pos ->
  pos + Z.of_nat (length text) <= Z.of_nat (length mem) ->
  linear_copy mem pos text =
  take (Z.to_nat pos) mem ++ text ++ drop (Z.to_nat pos + length text) mem /\
  length (take (Z.to_nat pos) mem) = Z.to_nat pos.
Proof.
  intros Hp Hroom. split; [reflexivity|]. rewrite length_take. lia.
Qed.

Lemma linear_copy_segment mem pos text :
  0 <= pos ->
  pos + Z.of_nat (length text) <= Z.of_nat (length mem) ->
  take (length text) (drop (Z.to_nat pos) (linear_copy mem pos text)) = text.
Proof.
  intros Hp Hroom. unfold linear_copy.
  rewrite drop_app_length' by (rewrite length_take; lia).
  apply take_app_length.
Qed.

(** ** Decimal digits *)

Lemma rev_digits_length fuel : forall val,
  (1 <= fuel)%nat -> (1 <= length (rev_digits fuel val) <= fuel)%nat.
Proof.
  induction fuel as [|fuel IH]; intros val Hf; [lia|].
  cbn [rev_digits]. destruct (val / 10 =? 0); cbn [length]; [lia|].
  destruct fuel as [|fuel']; [cbn; lia|].
  specialize (IH (val / 10)). lia.
Qed.

Lemma rev_digits_range fuel : forall val,
  0 <= val -> Forall (fun d => 0 <= d < 10) (rev_digits fuel val).
Proof.
  induction fuel as [|fuel IH]; intros val Hv; [constructor|].
  cbn [rev_digits]. constructor; [lia|].
  destruct (val / 10 =? 0); [constructor|]. apply IH. lia.
Qed.

(** With enough fuel the digits denote the value. *)
Lemma rev_digits_value fuel : forall val,
  0 <= val < 10 ^ Z.of_nat fuel ->
  fold_right (fun d acc => d + 10 * acc) 0 (rev_digits fuel val) = val.
Proof.
  induction fuel as [|fuel IH]; intros val Hv.
  - cbn in Hv. cbn. lia.
  - cbn [rev_digits fold_right].
    rewrite Nat2Z.inj_succ, Z.pow_succ_r in Hv by lia.
    destruct (Z.eqb_spec (val / 10) 0) as [Hz|Hnz].
    + cbn [fold_right]. lia.
    + rewrite IH by lia. lia.
Qed.

(** The most significant digit is not zero, except for the value 0. *)
Lemma rev_digits_last fuel : forall val,
  0 < val < 10 ^ Z.of_nat fuel ->
  exists ds d, rev_digits fuel val = ds ++ [d] /\ d <> 0.
Proof.
  induction fuel as [|fuel IH]; intros val Hv.
  - cbn in Hv. lia.
  - cbn [rev_digits].
    rewrite Nat2Z.inj_succ, Z.pow_succ_r in Hv by lia.
    destruct (Z.eqb_spec (val / 10) 0) as [Hz|Hnz].
    + exists [], (val mod 10). split; [reflexivity|lia].
    + destruct (IH (val / 10)) as (ds & d & Hds & Hd); [lia|].
      exists (val mod 10 :: ds), d. rewrite Hds. split; [reflexivity|exact Hd].
Qed.

(** ** The two loops of [formatUnsignedNum] *)

Lemma digit_loop_spec fuel : forall mem buf i val,
  (1 <= fuel)%nat ->
  0 <= buf -> 0 <= i -> 0 <= val < 10 ^ Z.of_nat fuel ->
  i + Z.of_nat (length (rev_digits fuel val)) <= 255 ->
  buf + i + Z.of_nat (length (rev_digits fuel val)) <= Z.of_nat (length mem) ->
  digit_loop fuel mem buf i val =
  Some (linear_copy mem (buf + i)
          (map (fun d => char_of (d + 48)) (rev_digits fuel val)),
        i + Z.of_nat (length (rev_digits fuel val))).
Proof.
  induction fuel as [|fuel IH]; intros mem buf i val Hf Hb Hi Hv Hu8 Hroom; [lia|].
  cbn [rev_digits digit_loop] in *.
  rewrite Nat2Z.inj_succ, Z.pow_succ_r in Hv by lia.
  assert (Hi1 : to_u8 (i + 1) = i + 1).
  { unfold to_u8. cbn [length] in Hu8. lia. }
  rewrite Hi1.
  destruct (Z.eqb_spec (val / 10) 0) as [Hz|Hnz].
  - cbn [length map] in *.
    rewrite poke_in by lia. cbn [mbind option_bind].
    do 2 f_equal.
    rewrite <- (linear_copy_nil (<[Z.to_nat (buf + i):=_]> mem) (buf + i + 1)).
    apply linear_copy_cons; cbn [length]; lia.
  - cbn [length map] in *.
    rewrite poke_in by lia. cbn [mbind option_bind].
    assert (Hf' : (1 <= fuel)%nat).
    { destruct fuel; [cbn in Hv; lia|lia]. }
    rewrite IH; try lia; [|rewrite length_insert; lia].
    f_equal. f_equal.
    + replace (buf + (i + 1)) with (buf + i + 1) by lia.
      apply linear_copy_cons; [lia|]. rewrite length_map. lia.
    + lia.
Qed.

Lemma digit_loop_overrun fuel : forall mem buf i val,
  0 <= buf -> 0 <= i ->
  i + Z.of_nat (length (rev_digits fuel val)) <= 255 ->
  Z.of_nat (length mem) < buf + i + Z.of_nat (length (rev_digits fuel val)) ->
  digit_loop fuel mem buf i val = None.
Proof.
  induction fuel as [|fuel IH]; intros mem buf i val Hb Hi Hu8 Hover; [reflexivity|].
  cbn [rev_digits digit_loop] in *.
  destruct (decide (Z.of_nat (length mem) <= buf + i)) as [Hout|Hin].
  - rewrite poke_out by lia. reflexivity.
  - rewrite poke_in by lia. cbn [mbind option_bind].
    destruct (Z.eqb_spec (val / 10) 0) as [Hz|Hnz]; cbn [length] in *; [lia|].
    assert (Hi1 : to_u8 (i + 1) = i + 1) by (unfold to_u8; lia).
    rewrite Hi1. apply IH; rewrite ?length_insert; lia.
Qed.

Lemma swap_loop_spec fuel : forall pre mid post buf start last,
  Z.of_nat (length pre) = buf + start ->
  Z.of_nat (length mid) = last - start + 1 ->
  0 <= buf -> 0 <= start -> last <= 255 ->
  (length mid <= 2 * fuel + 1)%nat ->
  swap_loop fuel (pre ++ mid ++ post) buf start last =
  Some (pre ++ rev mid ++ post).
Proof.
  induction fuel as [|fuel IH];
    intros pre mid post buf start last Hpre Hmid Hb Hs Hl Hfuel.
  - cbn [swap_loop].
    destruct (Z.ltb_spec start last); [lia|].
    destruct mid as [|a [|b mid]]; cbn [length] in *; try lia; reflexivity.
  - cbn [swap_loop].
    destruct (Z.ltb_spec start last) as [Hlt|Hge].
    + destruct mid as [|a mid]; [cbn [length] in Hmid; lia|].
      destruct (exists_last (l := mid)) as (mid' & b & ->).
      { intros ->. cbn [length] in Hmid. lia. }
      cbn [length] in Hmid, Hfuel. rewrite length_app in Hmid, Hfuel.
      cbn [length] in Hmid, Hfuel.
      assert (Hpk1 : peek (pre ++ (a :: mid' ++ [b]) ++ post) (buf + start) = Some a).
      { unfold peek. destruct (Z.leb_spec 0 (buf + start)); [|lia].
        replace (Z.to_nat (buf + start)) with (length pre + 0)%nat by lia.
        rewrite lookup_app_r by lia.
        replace (length pre + 0 - length pre)%nat with 0%nat by lia.
        reflexivity. }
      assert (Hpk2 : peek (pre ++ (a :: mid' ++ [b]) ++ post) (buf + last) = Some b).
      { unfold peek. destruct (Z.leb_spec 0 (buf + last)); [|lia].
        replace (Z.to_nat (buf + last)) with (length pre + S (length mid'))%nat by lia.
        rewrite lookup_app_r by lia.
        replace (length pre + S (length mid') - length pre)%nat
          with (S (length mid')) by lia.
        cbn [app]. rewrite lookup_cons_ne_0 by lia. cbn [pred].
        rewrite <- List.app_assoc.
        rewrite lookup_app_r by lia. rewrite Nat.sub_diag. reflexivity. }
      rewrite Hpk1, Hpk2. cbn [mbind option_bind].
      rewrite poke_in by (rewrite !length_app; cbn [length]; rewrite length_app; cbn [length]; lia).
      cbn [mbind option_bind].
      replace (Z.to_nat (buf + start)) with (length pre + 0)%nat by lia.
      rewrite insert_app_r. cbn [app].
      change (<[0%nat:=b]> (a :: (mid' ++ [b]) ++ post))
        with (b :: (mid' ++ [b]) ++ post).
      rewrite poke_in
        by (rewrite !length_app; cbn [length]; rewrite length_app;
            cbn [length]; rewrite length_app; cbn [length]; lia).
      cbn [mbind option_bind].
      replace (Z.to_nat (buf + last))
        with (length (pre ++ b :: mid') + 0)%nat
        by (rewrite length_app; cbn [length]; lia).
      replace (pre ++ b :: (mid' ++ [b]) ++ post)
        with ((pre ++ b :: mid') ++ b :: post)
        by (rewrite <- !List.app_assoc; reflexivity).
      rewrite insert_app_r.
      change (<[0%nat:=a]> (b :: post)) with (a :: post).
      replace ((pre ++ b :: mid') ++ a :: post)
        with ((pre ++ [b]) ++ mid' ++ (a :: post))
        by (rewrite <- !List.app_assoc; reflexivity).
      assert (Hs1 : to_u8 (start + 1) = start + 1) by (unfold to_u8; lia).
      assert (Hl1 : to_u8 (last - 1) = last - 1) by (unfold to_u8; lia).
      rewrite Hs1, Hl1.
      rewrite IH; try lia; [|rewrite length_app; cbn [length]; lia].
      f_equal. cbn [rev]. rewrite rev_app_distr. cbn [rev app].
      rewrite <- !List.app_assoc. reflexivity.
    + destruct mid as [|a [|b mid]]; cbn [length] in *; try lia; reflexivity.
Qed.

(** ** [formatUnsignedNum] *)

Lemma decimal_length val : (1 <= length (decimal val) <= 10)%nat.
Proof.
  unfold decimal. rewrite length_map, length_rev.
  apply rev_digits_length. lia.
Qed.

Lemma formatUnsignedNum_writes mem buf val :
  0 <= buf -> 0 <= val < 4294967296 ->
  buf + Z.of_nat (length (decimal val)) <= Z.of_nat (length mem) ->
  formatUnsignedNum mem buf val =
  Some (linear_copy mem buf (decimal val), Z.of_nat (length (decimal val))).
Proof.
  intros Hb Hv Hroom. pose proof (decimal_length val) as Hlen.
  unfold decimal in *. rewrite length_map, length_rev in *.
  unfold formatUnsignedNum.
  rewrite digit_loop_spec; try lia.
  cbn [mbind option_bind]. rewrite Z.add_0_l, Z.add_0_r.
  set (D := map (fun d => char_of (d + 48)) (rev_digits 10 val)).
  assert (HD : length D = length (rev_digits 10 val)) by apply length_map.
  unfold linear_copy at 1.
  assert (Hl1 : to_u8 (Z.of_nat (length (rev_digits 10 val)) - 1) =
                Z.of_nat (length (rev_digits 10 val)) - 1)
    by (unfold to_u8; lia).
  rewrite Hl1.
  rewrite (swap_loop_spec _ (take (Z.to_nat buf) mem) D); rewrite ?length_take; try lia.
  cbn [mbind option_bind]. do 2 f_equal.
  unfold linear_copy. rewrite map_rev. fold D. rewrite length_rev. reflexivity.
Qed.

Lemma formatUnsignedNum_overrun mem buf val :
  0 <= buf ->
  Z.of_nat (length mem) < buf + Z.of_nat (length (decimal val)) ->
  formatUnsignedNum mem buf val = None.
Proof.
  intros Hb Hover. pose proof (decimal_length val) as Hlen.
  unfold decimal in *. rewrite length_map, length_rev in *.
  unfold formatUnsignedNum.
  rewrite digit_loop_overrun; [reflexivity|lia..].
Qed.

Lemma parse_digits_from acc ds :
  Forall (fun d => 0 <= d < 10) ds ->
  fold_left (fun a c => 10 * a + (char_code c - 48))
            (map (fun d => char_of (d + 48)) ds) acc =
  fold_left (fun a d => 10 * a + d) ds acc.
Proof.
  intros H. revert acc. induction H as [|d ds Hd _ IH]; intros acc; [reflexivity|].
  cbn [map fold_left]. rewrite digit_char_code by exact Hd.
  replace (10 * acc + (d + 48 - 48)) with (10 * acc + d) by lia.
  apply IH.
Qed.

Lemma parse_decimal_decimal val :
  0 <= val < 4294967296 -> parse_decimal (decimal val) = val.
Proof.
  intros Hv. unfold parse_decimal, decimal.
  rewrite parse_digits_from.
  - rewrite <- fold_left_rev_right, rev_involutive.
    rewrite <- (rev_digits_value 10 val) at 2 by lia.
    induction (rev_digits 10 val) as [|d ds IH]; [reflexivity|].
    cbn [fold_right]. rewrite IH. lia.
  - apply Forall_rev, rev_digits_range. lia.
Qed.

Lemma decimal_digits val : 0 <= val -> Forall is_digit (decimal val).
Proof.
  intros Hv. unfold decimal. apply Forall_map, Forall_rev.
  eapply Forall_impl; [apply rev_digits_range; exact Hv|].
  intros d Hd. unfold is_digit. cbn beta in *.
  rewrite digit_char_code by exact Hd. lia.
Qed.

Lemma decimal_no_leading_zero val :
  0 < val < 4294967296 ->
  exists c text, decimal val = c :: text /\ c <> x30.
Proof.
  intros Hv. destruct (rev_digits_last 10 val) as (ds & d & Hds & Hd); [lia|].
  pose proof (rev_digits_range 10 val) as Hr. rewrite Hds in Hr.
  unfold decimal. rewrite Hds, rev_app_distr. cbn [rev app map].
  eexists _, _. split; [reflexivity|].
  intros Hc. apply (f_equal char_code) in Hc.
  rewrite digit_char_code in Hc.
  - change (char_code x30) with 48 in Hc. lia.
  - assert (Hin : Forall (fun d => 0 <= d < 10) (ds ++ [d])) by (apply Hr; lia).
    apply Forall_app in Hin as [_ Hin]. inversion Hin; assumption.
Qed.

(** ** [formatSignedNum] *)

Lemma signed_decimal_length val : (1 <= length (signed_decimal val) <= 11)%nat.
Proof.
  unfold signed_decimal. destruct (val <? 0); cbn [length].
  - pose proof (decimal_length (- val)). lia.
  - pose proof (decimal_length val). lia.
Qed.

Lemma formatSignedNum_writes mem buf val :
  0 <= buf -> -2147483648 < val < 2147483648 ->
  buf + Z.of_nat (length (signed_decimal val)) <= Z.of_nat (length mem) ->
  formatSignedNum mem buf val =
  Some (linear_copy mem buf (signed_decimal val),
        Z.of_nat (length (signed_decimal val))).
Proof.
  intros Hb Hv Hroom. unfold formatSignedNum, signed_decimal in *.
  destruct (Z.ltb_spec val 0) as [Hneg|Hpos].
  - destruct (Z.eqb_spec val (-2147483648)); [lia|].
    cbn [length] in Hroom. pose proof (decimal_length (- val)) as Hlen.
    rewrite poke_in by lia. cbn [mbind option_bind].
    assert (Hu : to_u32 (- val) = - val) by (unfold to_u32; lia).
    rewrite Hu, formatUnsignedNum_writes; try lia; [|rewrite length_insert; lia].
    cbn [mbind option_bind length]. f_equal. f_equal.
    + apply linear_copy_cons; lia.
    + unfold to_u16. lia.
  - pose proof (decimal_length val) as Hlen.
    assert (Hu : to_u32 val = val) by (unfold to_u32; lia).
    rewrite Hu, formatUnsignedNum_writes by lia.
    cbn [mbind option_bind]. do 2 f_equal. unfold to_u16. lia.
Qed.

Lemma formatSignedNum_overrun mem buf val :
  0 <= buf -> -2147483648 < val < 2147483648 ->
  Z.of_nat (length mem) < buf + Z.of_nat (length (signed_decimal val)) ->
  formatSignedNum mem buf val = None.
Proof.
  intros Hb Hv Hover. unfold formatSignedNum, signed_decimal in *.
  destruct (Z.ltb_spec val 0) as [Hneg|Hpos].
  - destruct (Z.eqb_spec val (-2147483648)); [lia|].
    cbn [length] in Hover.
    destruct (decide (Z.of_nat (length mem) <= buf)) as [Hout|Hin].
    + rewrite poke_out by lia. reflexivity.
    + rewrite poke_in by lia. cbn [mbind option_bind].
      assert (Hu : to_u32 (- val) = - val) by (unfold to_u32; lia).
      rewrite Hu, formatUnsignedNum_overrun; [reflexivity|lia|].
      rewrite length_insert. lia.
  - assert (Hu : to_u32 val = val) by (unfold to_u32; lia).
    rewrite Hu, formatUnsignedNum_overrun by lia. reflexivity.
Qed.

(** ** [_strcpy] *)

Lemma c_string_length src : (length (c_string src) <= length src)%nat.
Proof.
  induction src as [|c src IH]; cbn [c_string length]; [lia|].
  destruct (Strings.Byte.eqb c x00); cbn [length]; lia.
Qed.

Lemma c_string_drop src (k : nat) :
  (src !! k = None /\ c_string (drop k src) = []) \/
  (src !! k = Some x00 /\ c_string (drop k src) = []) \/
  (exists c, src !! k = Some c /\ Strings.Byte.eqb c x00 = false /\
             c_string (drop k src) = c :: c_string (drop (S k) src)).
Proof.
  destruct (src !! k) as [c|] eqn:Hk.
  - right. rewrite (drop_S _ _ _ Hk). cbn [c_string].
    destruct (Strings.Byte.eqb c x00) eqn:Hc.
    + left. apply Strings.Byte.byte_dec_bl in Hc. subst. auto.
    + right. exists c. auto.
  - left. apply lookup_ge_None_1 in Hk. rewrite drop_ge by lia. auto.
Qed.

Lemma str_at_nat src (k : nat) : str_at src (Z.of_nat k) = default x00 (src !! k).
Proof. unfold str_at. rewrite Nat2Z.id. reflexivity. Qed.

Lemma strcpy_loop_spec src des fuel : forall mem (k : nat),
  (length (c_string (drop k src)) <= fuel)%nat ->
  Z.of_nat k + Z.of_nat (length (c_string (drop k src))) < 65536 ->
  0 <= des ->
  des + Z.of_nat k + Z.of_nat (length (c_string (drop k src)))
    <= Z.of_nat (length mem) ->
  strcpy_loop fuel src mem des (Z.of_nat k) =
  Some (linear_copy mem (des + Z.of_nat k) (c_string (drop k src)),
        Z.of_nat k + Z.of_nat (length (c_string (drop k src)))).
Proof.
  induction fuel as [|fuel IH]; intros mem k Hfuel Hu16 Hd Hroom.
  - cbn [strcpy_loop]. rewrite str_at_nat.
    destruct (c_string_drop src k) as [[Hk Ht]|[[Hk Ht]|(c & Hk & Hc & Ht)]];
      rewrite Hk, Ht in *; cbn [default from_option id length] in *.
    + cbn. rewrite linear_copy_nil, Z.add_0_r. reflexivity.
    + cbn. rewrite linear_copy_nil, Z.add_0_r. reflexivity.
    + lia.
  - cbn [strcpy_loop]. rewrite str_at_nat.
    destruct (c_string_drop src k) as [[Hk Ht]|[[Hk Ht]|(c & Hk & Hc & Ht)]];
      rewrite Hk, Ht in *; cbn [default from_option id length] in *.
    + cbn. rewrite linear_copy_nil, Z.add_0_r. reflexivity.
    + cbn. rewrite linear_copy_nil, Z.add_0_r. reflexivity.
    + rewrite Hc. rewrite poke_in by lia. cbn [mbind option_bind].
      assert (Hi1 : to_u16 (Z.of_nat k + 1) = Z.of_nat (S k))
        by (unfold to_u16; lia).
      rewrite Hi1, IH; try lia; [|rewrite length_insert; lia].
      f_equal. f_equal; [|lia].
      replace (des + Z.of_nat (S k)) with (des + Z.of_nat k + 1) by lia.
      apply linear_copy_cons; lia.
Qed.

Lemma strcpy_loop_overrun src des fuel : forall mem (k : nat),
  Z.of_nat k + Z.of_nat (length (c_string (drop k src))) < 65536 ->
  0 <= des ->
  des + Z.of_nat k <= Z.of_nat (length mem) ->
  Z.of_nat (length mem) <
    des + Z.of_nat k + Z.of_nat (length (c_string (drop k src))) ->
  strcpy_loop fuel src mem des (Z.of_nat k) = None.
Proof.
  induction fuel as [|fuel IH]; intros mem k Hu16 Hd Hin Hover.
  - cbn [strcpy_loop]. rewrite str_at_nat.
    destruct (c_string_drop src k) as [[Hk Ht]|[[Hk Ht]|(c & Hk & Hc & Ht)]];
      rewrite Hk, Ht in *; cbn [default from_option id length] in *; try lia.
    rewrite Hc. reflexivity.
  - cbn [strcpy_loop]. rewrite str_at_nat.
    destruct (c_string_drop src k) as [[Hk Ht]|[[Hk Ht]|(c & Hk & Hc & Ht)]];
      rewrite Hk, Ht in *; cbn [default from_option id length] in *; try lia.
    rewrite Hc.
    destruct (decide (Z.of_nat (length mem) <= des + Z.of_nat k)) as [Hout|Hok].
    + rewrite poke_out by lia. reflexivity.
    + rewrite poke_in by lia. cbn [mbind option_bind].
      assert (Hi1 : to_u16 (Z.of_nat k + 1) = Z.of_nat (S k))
        by (unfold to_u16; lia).
      rewrite Hi1. apply IH; rewrite ?length_insert; lia.
Qed.

Lemma _strcpy_writes mem des src :
  0 <= des ->
  Z.of_nat (length (c_string src)) < 65536 ->
  des + Z.of_nat (length (c_string src)) <= Z.of_nat (length mem) ->
  _strcpy mem des src =
  Some (linear_copy mem des (c_string src), Z.of_nat (length (c_string src))).
Proof.
  intros Hd Hu16 Hroom. unfold _strcpy.
  pose proof (strcpy_loop_spec src des (length src) mem 0) as H.
  rewrite drop_0 in H. cbn [Z.of_nat] in H.
  rewrite Z.add_0_r, Z.add_0_l in H. apply H; try lia.
  apply c_string_length.
Qed.

Lemma _strcpy_overrun mem des src :
  0 <= des -> des <= Z.of_nat (length mem) ->
  Z.of_nat (length (c_string src)) < 65536 ->
  Z.of_nat (length mem) < des + Z.of_nat (length (c_string src)) ->
  _strcpy mem des src = None.
Proof.
  intros Hd Hin Hu16 Hover. unfold _strcpy.
  pose proof (strcpy_loop_overrun src des (length src) mem 0) as H.
  rewrite drop_0 in H. cbn [Z.of_nat] in H.
  rewrite Z.add_0_r, Z.add_0_l in H. apply H; lia.
Qed.

(** ** [formatSingle] and [formatMulti] *)

Lemma formatSingle_writes mem pos a :
  arg_ok a -> 0 <= pos ->
  pos + Z.of_nat (length (render_arg a)) <= Z.of_nat (length mem) ->
  formatSingle mem pos a =
  Some (linear_copy mem pos (render_arg a), Z.of_nat (length (render_arg a))).
Proof.
  intros Hok Hp Hroom. destruct a as [v|v|str|c]; cbn [formatSingle render_arg arg_ok] in *.
  - apply formatSignedNum_writes; assumption.
  - apply formatUnsignedNum_writes; assumption.
  - apply _strcpy_writes; assumption.
  - cbn [length] in Hroom. rewrite poke_in by lia. cbn [mbind option_bind].
    do 2 f_equal.
    rewrite <- (linear_copy_nil (<[Z.to_nat pos:=c]> mem) (pos + 1)).
    apply linear_copy_cons; cbn [length]; lia.
Qed.

Lemma formatSingle_overrun mem pos a :
  arg_ok a -> 0 <= pos <= Z.of_nat (length mem) ->
  Z.of_nat (length mem) < pos + Z.of_nat (length (render_arg a)) ->
  formatSingle mem pos a = None.
Proof.
  intros Hok Hp Hover. destruct a as [v|v|str|c]; cbn [formatSingle render_arg arg_ok] in *.
  - apply formatSignedNum_overrun; (assumption || lia).
  - apply formatUnsignedNum_overrun; (assumption || lia).
  - apply _strcpy_overrun; (assumption || lia).
  - cbn [length] in Hover. rewrite poke_out by lia. reflexivity.
Qed.

Lemma render_cons a args : render (a :: args) = render_arg a ++ render args.
Proof. reflexivity. Qed.

Lemma formatMulti_writes args : forall mem pos,
  Forall arg_ok args -> 0 <= pos ->
  Z.of_nat (length mem) < 65536 ->
  pos + Z.of_nat (length (render args)) <= Z.of_nat (length mem) ->
  formatMulti mem pos args =
  Some (linear_copy mem pos (render args), Z.of_nat (length (render args))).
Proof.
  induction args as [|a args IH]; intros mem pos Hok Hp Hcap Hroom.
  - cbn [formatMulti]. rewrite linear_copy_nil. reflexivity.
  - inversion Hok as [|? ? Ha Hrest]; subst.
    rewrite render_cons, length_app in *. cbn [formatMulti].
    rewrite formatSingle_writes by (assumption || lia).
    cbn [mbind option_bind].
    rewrite IH; try assumption; try lia;
      rewrite ?linear_copy_length; try lia.
    cbn [mbind option_bind]. f_equal. f_equal.
    + apply linear_copy_app; lia.
    + unfold to_u16. lia.
Qed.

Lemma formatMulti_overrun args : forall mem pos,
  Forall arg_ok args -> 0 <= pos <= Z.of_nat (length mem) ->
  Z.of_nat (length mem) < 65536 ->
  Z.of_nat (length mem) < pos + Z.of_nat (length (render args)) ->
  formatMulti mem pos args = None.
Proof.
  induction args as [|a args IH]; intros mem pos Hok Hp Hcap Hover.
  - cbn [render map concat length] in Hover. lia.
  - inversion Hok as [|? ? Ha Hrest]; subst.
    rewrite render_cons, length_app in Hover. cbn [formatMulti].
    destruct (decide (pos + Z.of_nat (length (render_arg a)) <=
                      Z.of_nat (length mem))) as [Hfit|Hno].
    + rewrite formatSingle_writes by (assumption || lia).
      cbn [mbind option_bind].
      rewrite IH; try assumption; rewrite ?linear_copy_length; try lia.
      reflexivity.
    + rewrite formatSingle_overrun by (assumption || lia). reflexivity.
Qed.

(** ** [enqueue] reads only the message *)

Lemma enqueue_message_only in_isr str1 str2 len s :
  wf s -> 0 <= len ->
  msg_bytes str1 len = msg_bytes str2 len ->
  enqueue in_isr str1 len s = enqueue in_isr str2 len s.
Proof.
  intros Hwf Hlen Hmsg.
  destruct (decide (0 < len <= availableSpace s (m_write_pos s))) as [Hfit|Hno].
  - rewrite !enqueue_reserved by assumption. rewrite Hmsg. reflexivity.
  - rewrite !enqueue_missed by (assumption || lia). reflexivity.
Qed.

Lemma msg_bytes_prefix text rest :
  msg_bytes (text ++ rest) (Z.of_nat (length text)) = text.
Proof.
  apply list_eq. intros i.
  destruct (decide (i < length text)%nat) as [Hi|Hi].
  - rewrite msg_bytes_lookup by lia. unfold str_at. rewrite Nat2Z.id.
    rewrite lookup_app_l by lia.
    destruct (lookup_lt_is_Some_2 text i Hi) as [c Hc]. rewrite Hc. reflexivity.
  - rewrite !lookup_ge_None_2; [reflexivity|lia|rewrite msg_bytes_length; lia].
Qed.

Lemma msg_bytes_linear_copy mem text :
  Z.of_nat (length text) <= Z.of_nat (length mem) ->
  msg_bytes (linear_copy mem 0 text) (Z.of_nat (length text)) = text.
Proof.
  intros H. unfold linear_copy.
  change (take (Z.to_nat 0) mem) with (@nil byte). cbn [app].
  apply msg_bytes_prefix.
Qed.

(** ** What the formatters write *)

(** X1. Whenever [formatUnsignedNum(buf, val)] returns, it has written
    between 1 and 10 bytes at [buf] and returns their number; the rest of
    the array is untouched; the bytes are ASCII digits that denote [val] in
    decimal, most significant digit first, with no leading zero. *)
Theorem formatUnsignedNum_decimal mem buf val mem' n :
  0 <= buf -> 0 <= val < 4294967296 ->
  formatUnsignedNum mem buf val = Some (mem', n) ->
  1 <= n <= 10 /\ buf + n <= Z.of_nat (length mem) /\
  exists text,
    Z.of_nat (length text) = n /\
    mem' = linear_copy mem buf text /\
    take (Z.to_nat n) (drop (Z.to_nat buf) mem') = text /\
    Forall is_digit text /\
    parse_decimal text = val /\
    (val <> 0 -> exists c rest, text = c :: rest /\ c <> x30).
Proof.
  intros Hb Hv Hrun. pose proof (decimal_length val) as Hlen.
  destruct (decide (buf + Z.of_nat (length (decimal val)) <=
                    Z.of_nat (length mem))) as [Hfit|Hno].
  - rewrite formatUnsignedNum_writes in Hrun by assumption.
    injection Hrun as <- <-. conjuncts; try lia.
    exists (decimal val). conjuncts.
    + reflexivity.
    + reflexivity.
    + rewrite Nat2Z.id. apply linear_copy_segment; assumption.
    + apply decimal_digits. lia.
    + apply parse_decimal_decimal. assumption.
    + intros Hnz. apply decimal_no_leading_zero. lia.
  - rewrite formatUnsignedNum_overrun in Hrun by lia. discriminate.
Qed.

Lemma formatUnsignedNum_decimal_witness :
  exists mem',
    formatUnsignedNum stale_line_buffer 246 4294967295 = Some (mem', 10) /\
    1 <= 10 <= 10 /\ 246 + 10 <= Z.of_nat (length stale_line_buffer) /\
    exists text,
      Z.of_nat (length text) = 10 /\
      mem' = linear_copy stale_line_buffer 246 text /\
      take (Z.to_nat 10) (drop (Z.to_nat 246) mem') = text /\
      Forall is_digit text /\
      parse_decimal text = 4294967295 /\
      (4294967295 <> 0 -> exists c rest, text = c :: rest /\ c <> x30).
Proof.
  eexists. split; [vm_compute; reflexivity|].
  eapply (formatUnsignedNum_decimal stale_line_buffer 246 4294967295);
    [lia|lia|vm_compute; reflexivity].
Defined.

(** X2. [formatUnsignedNum(buf, val)] returns exactly when the decimal text
    of [val] fits between [buf] and the end of the array, so ten free bytes
    are always enough; otherwise it runs past the end of the array. *)
Theorem formatUnsignedNum_fits mem buf val :
  0 <= buf -> 0 <= val < 4294967296 ->
  (is_Some (formatUnsignedNum mem buf val) <->
   buf + Z.of_nat (length (decimal val)) <= Z.of_nat (length mem)) /\
  (buf + 10 <= Z.of_nat (length mem) ->
   is_Some (formatUnsignedNum mem buf val)).
Proof.
  intros Hb Hv. pose proof (decimal_length val) as Hlen.
  assert (Hiff : is_Some (formatUnsignedNum mem buf val) <->
                 buf + Z.of_nat (length (decimal val)) <= Z.of_nat (length mem)).
  { split.
    - intros [r Hr].
      destruct (decide (buf + Z.of_nat (length (decimal val)) <=
                        Z.of_nat (length mem))) as [Hfit|Hno]; [exact Hfit|].
      rewrite formatUnsignedNum_overrun in Hr by lia. discriminate.
    - intros Hfit. rewrite formatUnsignedNum_writes by assumption. eauto. }
  split; [exact Hiff|]. intros Hroom. apply Hiff. lia.
Qed.

Lemma formatUnsignedNum_fits_witness :
  (is_Some (formatUnsignedNum stale_line_buffer 250 1234567) <->
   250 + Z.of_nat (length (decimal 1234567))
     <= Z.of_nat (length stale_line_buffer)) /\
  (250 + 10 <= Z.of_nat (length stale_line_buffer) ->
   is_Some (formatUnsignedNum stale_line_buffer 250 1234567)).
Proof.
  apply (formatUnsignedNum_fits stale_line_buffer 250 1234567); lia.
Defined.

Lemma parse_signed_signed_decimal val :
  -2147483648 < val < 2147483648 -> parse_signed (signed_decimal val) = val.
Proof.
  intros Hv. unfold signed_decimal.
  destruct (Z.ltb_spec val 0) as [Hneg|Hpos].
  - cbn [parse_signed].
    rewrite (Strings.Byte.byte_dec_lb (x := x2d) (y := x2d) eq_refl).
    rewrite parse_decimal_decimal by lia. lia.
  - pose proof (decimal_digits val Hpos) as Hd.
    pose proof (decimal_length val) as Hlen.
    pose proof (parse_decimal_decimal val) as Hp.
    destruct (decimal val) as [|c rest]; [cbn [length] in Hlen; lia|].
    cbn [parse_signed].
    destruct (Strings.Byte.eqb c x2d) eqn:Hc.
    + apply Strings.Byte.byte_dec_bl in Hc. subst c.
      inversion Hd as [|? ? Hdig _]. unfold is_digit in Hdig.
      change (char_code x2d) with 45 in Hdig. lia.
    + apply Hp. lia.
Qed.

(** X3. Whenever [formatSignedNum(buf, val)] returns for a value other
    than the smallest [int32_t], it has written between 1 and 11 bytes at
    [buf] and returns their number; the rest of the array is untouched; the
    text is a minus sign exactly when [val] is negative, followed by
    decimal digits, and it denotes [val]. *)
Theorem formatSignedNum_decimal mem buf val mem' n :
  0 <= buf -> -2147483648 < val < 2147483648 ->
  formatSignedNum mem buf val = Some (mem', n) ->
  1 <= n <= 11 /\ buf + n <= Z.of_nat (length mem) /\
  exists text,
    Z.of_nat (length text) = n /\
    mem' = linear_copy mem buf text /\
    take (Z.to_nat n) (drop (Z.to_nat buf) mem') = text /\
    parse_signed text = val /\
    (val < 0 -> exists digits,
       text = x2d :: digits /\ Forall is_digit digits /\
       parse_decimal digits = - val) /\
    (0 <= val -> Forall is_digit text).
Proof.
  intros Hb Hv Hrun. pose proof (signed_decimal_length val) as Hlen.
  destruct (decide (buf + Z.of_nat (length (signed_decimal val)) <=
                    Z.of_nat (length mem))) as [Hfit|Hno].
  - rewrite formatSignedNum_writes in Hrun by assumption.
    injection Hrun as <- <-. conjuncts; try lia.
    exists (signed_decimal val). conjuncts.
    + reflexivity.
    + reflexivity.
    + rewrite Nat2Z.id. apply linear_copy_segment; assumption.
    + apply parse_signed_signed_decimal. assumption.
    + intros Hneg. unfold signed_decimal.
      destruct (Z.ltb_spec val 0); [|lia].
      exists (decimal (- val)). conjuncts;
        [reflexivity|apply decimal_digits; lia|apply parse_decimal_decimal; lia].
    + intros Hpos. unfold signed_decimal.
      destruct (Z.ltb_spec val 0); [lia|]. apply decimal_digits. assumption.
  - rewrite formatSignedNum_overrun in Hrun by (assumption || lia). discriminate.
Qed.

Lemma formatSignedNum_decimal_witness :
  exists mem',
    formatSignedNum stale_line_buffer 3 (-2147483647) = Some (mem', 11) /\
    1 <= 11 <= 11 /\ 3 + 11 <= Z.of_nat (length stale_line_buffer) /\
    exists text,
      Z.of_nat (length text) = 11 /\
      mem' = linear_copy stale_line_buffer 3 text /\
      take (Z.to_nat 11) (drop (Z.to_nat 3) mem') = text /\
      parse_signed text = -2147483647 /\
      (-2147483647 < 0 -> exists digits,
         text = x2d :: digits /\ Forall is_digit digits /\
         parse_decimal digits = - -2147483647) /\
      (0 <= -2147483647 -> Forall is_digit text).
Proof.
  eexists. split; [vm_compute; reflexivity|].
  eapply (formatSignedNum_decimal stale_line_buffer 3 (-2147483647));
    [lia|lia|vm_compute; reflexivity].
Defined.

Lemma c_string_prefix src :
  exists rest, src = c_string src ++ rest /\
               (rest = [] \/ exists rest', rest = x00 :: rest').
Proof.
  induction src as [|c src (rest & Hsrc & Hrest)]; cbn [c_string].
  - exists []. auto.
  - destruct (Strings.Byte.eqb c x00) eqn:Hc.
    + apply Strings.Byte.byte_dec_bl in Hc. subst c.
      exists (x00 :: src). split; [reflexivity|]. right. eauto.
    + exists rest. cbn [app]. split; [f_equal; exact Hsrc|exact Hrest].
Qed.

Lemma c_string_nonzero src : Forall (fun c => c <> x00) (c_string src).
Proof.
  induction src as [|c src IH]; cbn [c_string]; [constructor|].
  destruct (Strings.Byte.eqb c x00) eqn:Hc; [constructor|].
  constructor; [|exact IH]. intros ->. discriminate.
Qed.

(** X4. [_strcpy(des, src)] copies the bytes of [src] that come before its
    first zero byte to [des] and returns their number; it writes no
    terminating zero, so the byte after the copy and the rest of the array
    are untouched. It runs past the end of the array exactly when the
    string does not fit. *)
Theorem _strcpy_copies mem des src :
  0 <= des <= Z.of_nat (length mem) ->
  Z.of_nat (length (c_string src)) < 65536 ->
  (des + Z.of_nat (length (c_string src)) <= Z.of_nat (length mem) ->
   _strcpy mem des src =
     Some (linear_copy mem des (c_string src),
           Z.of_nat (length (c_string src))) /\
   forall j : nat,
     (Z.to_nat des + length (c_string src) <= j)%nat ->
     linear_copy mem des (c_string src) !! j = mem !! j) /\
  (Z.of_nat (length mem) < des + Z.of_nat (length (c_string src)) ->
   _strcpy mem des src = None) /\
  Forall (fun c => c <> x00) (c_string src) /\
  exists rest, src = c_string src ++ rest /\
               (rest = [] \/ exists rest', rest = x00 :: rest').
Proof.
  intros Hd Hu16. conjuncts.
  - intros Hfit. split; [apply _strcpy_writes; lia|].
    intros j Hj. rewrite linear_copy_lookup by lia.
    destruct (decide _); [lia|reflexivity].
  - intros Hover. apply _strcpy_overrun; lia.
  - apply c_string_nonzero.
  - apply c_string_prefix.
Qed.

Lemma _strcpy_copies_witness :
  _strcpy stale_line_buffer 2 [x54; x3d; x00; x3f] =
    Some (linear_copy stale_line_buffer 2 [x54; x3d], 2) /\
  forall j : nat,
    (Z.to_nat 2 + length (c_string [x54; x3d; x00; x3f]) <= j)%nat ->
    linear_copy stale_line_buffer 2 (c_string [x54; x3d; x00; x3f]) !! j =
    stale_line_buffer !! j.
Proof.
  assert (Hd : 0 <= 2 <= Z.of_nat (length stale_line_buffer))
    by (vm_compute; split; discriminate).
  assert (Hu : Z.of_nat (length (c_string [x54; x3d; x00; x3f])) < 65536)
    by (vm_compute; reflexivity).
  destruct (_strcpy_copies stale_line_buffer 2 [x54; x3d; x00; x3f] Hd Hu)
    as (Hfit & _).
  apply Hfit. vm_compute. discriminate.
Defined.

(** X5. [formatMulti(pos, args...)] writes the texts of its arguments one
    after the other from [pos] on and returns the total length; the rest of
    the array is untouched. It runs past the end of the array exactly when
    the concatenated text does not fit. *)
Theorem formatMulti_concatenates mem pos args :
  Forall arg_ok args ->
  0 <= pos <= Z.of_nat (length mem) ->
  Z.of_nat (length mem) < 65536 ->
  formatMulti mem pos args =
  if pos + Z.of_nat (length (render args)) <=? Z.of_nat (length mem)
  then Some (linear_copy mem pos (render args),
             Z.of_nat (length (render args)))
  else None.
Proof.
  intros Hok Hp Hcap.
  destruct (Z.leb_spec (pos + Z.of_nat (length (render args)))
              (Z.of_nat (length mem))).
  - apply formatMulti_writes; (assumption || lia).
  - apply formatMulti_overrun; (assumption || lia).
Qed.

Lemma example_args_ok : Forall arg_ok example_args.
Proof.
  unfold example_args. repeat constructor; cbn; lia.
Qed.

Lemma formatMulti_concatenates_witness :
  formatMulti stale_line_buffer 240 example_args =
  if 240 + Z.of_nat (length (render example_args))
     <=? Z.of_nat (length stale_line_buffer)
  then Some (linear_copy stale_line_buffer 240 (render example_args),
             Z.of_nat (length (render example_args)))
  else None.
Proof.
  apply (formatMulti_concatenates stale_line_buffer 240 example_args).
  - exact example_args_ok.
  - vm_compute. split; discriminate.
  - vm_compute. reflexivity.
Defined.

(** ** The log functions *)

(** X6. [log(args...)] enqueues exactly the concatenated text of its
    arguments, whatever the local [line_buffer] held on entry, when the text
    is at most [SINGLE_MSG_SIZE] bytes long; a longer text runs past the end
    of [line_buffer]. *)
Theorem log_enqueues_text in_isr line_buffer args s :
  wf s ->
  Z.of_nat (length line_buffer) = SINGLE_MSG_SIZE ->
  Forall arg_ok args ->
  (Z.of_nat (length (render args)) <= SINGLE_MSG_SIZE ->
   log in_isr line_buffer args s =
   enqueue in_isr (render args) (Z.of_nat (length (render args))) s) /\
  (SINGLE_MSG_SIZE < Z.of_nat (length (render args)) ->
   log in_isr line_buffer args s = None).
Proof.
  intros Hwf Hlb Hok. unfold log, SINGLE_MSG_SIZE in *. split; intros Hlen.
  - rewrite formatMulti_writes by (assumption || lia).
    cbn [mbind option_bind].
    apply enqueue_message_only; [assumption|lia|].
    rewrite msg_bytes_linear_copy by lia. symmetry. apply msg_bytes_exact.
  - rewrite formatMulti_overrun by (assumption || lia). reflexivity.
Qed.

Lemma log_enqueues_text_witness :
  wf idle_logger /\
  Z.of_nat (length stale_line_buffer) = SINGLE_MSG_SIZE /\
  Forall arg_ok example_args /\
  (Z.of_nat (length (render example_args)) <= SINGLE_MSG_SIZE ->
   log false stale_line_buffer example_args idle_logger =
   enqueue false (render example_args)
           (Z.of_nat (length (render example_args))) idle_logger).
Proof.
  split; [exact wf_idle_logger|].
  split; [reflexivity|]. split; [exact example_args_ok|].
  exact (proj1 (log_enqueues_text false stale_line_buffer example_args
                  idle_logger wf_idle_logger eq_refl example_args_ok)).
Defined.

Lemma linear_copy_single mem pos c :
  0 <= pos < Z.of_nat (length mem) ->
  <[Z.to_nat pos := c]> mem = linear_copy mem pos [c].
Proof.
  intros Hp.
  rewrite <- (linear_copy_nil (<[Z.to_nat pos:=c]> mem) (pos + 1)).
  apply linear_copy_cons; cbn [length]; lia.
Qed.


Lemma assert_param_true full_assert : assert_param full_assert true = Some tt.
Proof. unfold assert_param. rewrite andb_false_r. reflexivity. Qed.

Lemma GENERATE_FUNC_line header full_assert in_isr line_buffer args s :
  Z.of_nat (length line_buffer) = SINGLE_MSG_SIZE ->
  Forall arg_ok args ->
  Z.of_nat (length (c_string header ++ render args ++ [x0a])) <= SINGLE_MSG_SIZE ->
  GENERATE_FUNC header full_assert in_isr line_buffer args s =
  enqueue in_isr
    (linear_copy line_buffer 0 (c_string header ++ render args ++ [x0a]))
    (Z.of_nat (length (c_string header ++ render args ++ [x0a]))) s.
Proof.
  intros Hlb Hok Hlen. unfold SINGLE_MSG_SIZE in *.
  rewrite !length_app in Hlen. cbn [length] in Hlen.
  unfold GENERATE_FUNC.
  rewrite _strcpy_writes by lia. cbn [mbind option_bind].
  rewrite formatMulti_writes; try assumption;
    rewrite ?linear_copy_length; try lia.
  cbn [mbind option_bind]. rewrite Z.add_0_l.
  rewrite (linear_copy_app line_buffer 0) by lia.
  assert (Ht : to_u16 (Z.of_nat (length (c_string header)) +
                       Z.of_nat (length (render args))) =
               Z.of_nat (length (c_string header ++ render args))).
  { rewrite length_app. unfold to_u16. lia. }
  rewrite Ht.
  rewrite poke_in
    by (rewrite linear_copy_length; rewrite ?length_app; lia).
  cbn [mbind option_bind].
  assert (Ht1 : to_u16 (Z.of_nat (length (c_string header ++ render args)) + 1) =
                Z.of_nat (length (c_string header ++ render args ++ [x0a]))).
  { rewrite !length_app. cbn [length]. unfold to_u16. lia. }
  rewrite Ht1.
  rewrite linear_copy_single
    by (rewrite linear_copy_length; rewrite ?length_app; lia).
  pose proof (linear_copy_app line_buffer 0
                (c_string header ++ render args) [x0a]) as Hnl.
  rewrite Z.add_0_l in Hnl.
  rewrite Hnl by (rewrite ?length_app; cbn [length]; lia).
  destruct (Z.leb_spec
              (Z.of_nat (length (c_string header ++ render args ++ [x0a])))
              SINGLE_MSG_SIZE) as [_|Hbad].
  - rewrite assert_param_true. cbn [mbind option_bind].
    rewrite <- List.app_assoc. reflexivity.
  - rewrite !length_app in Hbad. cbn [length] in Hbad.
    unfold SINGLE_MSG_SIZE in Hbad. lia.
Qed.


(** X7. [logln], [info], [warning] and [error] enqueue exactly their
    header, then the concatenated text of the arguments, then a newline,
    whatever the local [line_buffer] held on entry and whether or not
    assertions are compiled in, when that line is at most
    [SINGLE_MSG_SIZE] bytes long. *)
Theorem log_functions_enqueue_line full_assert in_isr line_buffer args s :
  wf s ->
  Z.of_nat (length line_buffer) = SINGLE_MSG_SIZE ->
  Forall arg_ok args ->
  let text := render args in
  (Z.of_nat (length text) + 1 <= SINGLE_MSG_SIZE ->
   logln full_assert in_isr line_buffer args s =
   enqueue in_isr (text ++ [x0a]) (Z.of_nat (length text) + 1) s) /\
  (Z.of_nat (length text) + 7 <= SINGLE_MSG_SIZE ->
   info full_assert in_isr line_buffer args s =
   enqueue in_isr (info_str ++ text ++ [x0a]) (Z.of_nat (length text) + 7) s) /\
  (Z.of_nat (length text) + 10 <= SINGLE_MSG_SIZE ->
   warning full_assert in_isr line_buffer args s =
   enqueue in_isr (warning_str ++ text ++ [x0a])
           (Z.of_nat (length text) + 10) s) /\
  (Z.of_nat (length text) + 8 <= SINGLE_MSG_SIZE ->
   error full_assert in_isr line_buffer args s =
   enqueue in_isr (error_str ++ text ++ [x0a]) (Z.of_nat (length text) + 8) s).
Proof.
  intros Hwf Hlb Hok text. subst text.
  assert (Hgen : forall header n,
            c_string header = header -> Z.of_nat (length header) + 1 = n ->
            Z.of_nat (length (render args)) + n <= SINGLE_MSG_SIZE ->
            GENERATE_FUNC header full_assert in_isr line_buffer args s =
            enqueue in_isr (header ++ render args ++ [x0a])
                    (Z.of_nat (length (render args)) + n) s).
  { intros header n Hc Hn Hlen.
    assert (Hl : Z.of_nat (length (header ++ render args ++ [x0a])) =
                 Z.of_nat (length (render args)) + n).
    { rewrite !length_app. cbn [length]. lia. }
    rewrite GENERATE_FUNC_line; rewrite ?Hc; try assumption; [|lia].
    rewrite Hl.
    apply enqueue_message_only; [assumption|lia|].
    rewrite <- Hl. unfold SINGLE_MSG_SIZE in *.
    rewrite msg_bytes_linear_copy by lia. symmetry. apply msg_bytes_exact. }
  conjuncts; intros Hlen.
  - apply (Hgen logln_str 1); auto.
  - apply (Hgen info_str 7); auto.
  - apply (Hgen warning_str 10); auto.
  - apply (Hgen error_str 8); auto.
Qed.

Lemma log_functions_enqueue_line_witness :
  wf idle_logger /\
  Z.of_nat (length stale_line_buffer) = SINGLE_MSG_SIZE /\
  Forall arg_ok example_args /\
  (Z.of_nat (length (render example_args)) + 10 <= SINGLE_MSG_SIZE ->
   warning true false stale_line_buffer example_args idle_logger =
   enqueue false (warning_str ++ render example_args ++ [x0a])
           (Z.of_nat (length (render example_args)) + 10) idle_logger).
Proof.
  split; [exact wf_idle_logger|].
  split; [reflexivity|]. split; [exact example_args_ok|].
  exact (proj1 (proj2 (proj2
           (log_functions_enqueue_line true false stale_line_buffer
              example_args idle_logger wf_idle_logger eq_refl
              example_args_ok)))).
Defined.



(** ** The assertion of the log functions *)










(** * More on the ring and the transfer controller *)

(** ** Every operation stays inside the buffer *)

Lemma startTransfer_in_bounds s :
  wf s -> Forall (dma_in_bounds (m_uart s)) (snd (startTransfer s)).
Proof.
  intros [Hr Hn Hw Hb _ _]. unfold startTransfer.
  destruct (Z.eqb_spec (m_write_pos s) (m_read_pos s)) as [Heq|Hne];
    cbn [negb andb]; [constructor|].
  destruct (m_enqueue_guard s =? 0); [|constructor].
  cbn [m_read_pos m_uart set_is_sending set_new_read_pos].
  destruct (Z.ltb_spec (m_read_pos s) (m_write_pos s)); cbn [snd];
    repeat constructor; unfold to_u16, SEND_BUFFER_SIZE in *; lia.
Qed.

Lemma process_in_bounds in_isr s :
  wf s -> Forall (dma_in_bounds (m_uart s)) (snd (process in_isr s)).
Proof.
  intros Hwf. unfold process. destruct (_ || _); [constructor|].
  apply startTransfer_in_bounds, Hwf.
Qed.

Lemma step_in_bounds s ev :
  wf s -> event_typed ev ->
  exists s' cs,
    step s ev = Some (s', cs) /\ wf s' /\
    Forall (dma_in_bounds (m_uart s)) cs.
Proof.
  intros Hwf Hty. destruct ev as [in_isr str len|in_isr|huart];
    cbn [step event_typed] in *.
  - assert (Hlen : 0 <= len) by (unfold is_u16 in Hty; lia).
    destruct (enqueue_total in_isr str len s Hwf Hlen) as (s' & cs & Hrun & Hwf').
    exists s', cs. conjuncts; [exact Hrun|exact Hwf'|].
    destruct (decide (0 < len <= availableSpace s (m_write_pos s))) as [Hfit|Hno].
    + destruct (enqueue_reserved_state in_isr str len s Hwf Hfit)
        as (s2 & cs2 & Hrun2 & Hp & Hb & _).
      rewrite Hrun in Hrun2. injection Hrun2 as <- <-.
      match type of Hp with
      | _ = process _ ?x =>
          assert (Hx : wf x); [|pose proof (process_in_bounds in_isr x Hx) as Hc]
      end.
      { pose proof (availableSpace_ring s (m_write_pos s)
                      (wf_read_pos s Hwf) (wf_write_pos s Hwf)) as Hav.
        destruct Hwf as [Hr Hn Hw Hbl Hg Hm]. split; cbn; try assumption.
        - unfold SEND_BUFFER_SIZE. lia.
        - rewrite ring_copy_length; try assumption.
          rewrite msg_bytes_length. unfold ring_dist, SEND_BUFFER_SIZE in *. lia. }
      rewrite <- Hp in Hc. exact Hc.
    + rewrite enqueue_missed in Hrun by (assumption || lia).
      injection Hrun as Hp.
      match type of Hp with
      | process _ ?x = _ =>
          assert (Hx : wf x); [|pose proof (process_in_bounds in_isr x Hx) as Hc]
      end.
      { destruct Hwf as [Hr Hn Hw Hbl Hg Hm]. split; cbn; try assumption.
        apply to_u16_range. }
      rewrite Hp in Hc. exact Hc.
  - destruct (process in_isr s) as [s' cs] eqn:Hp. exists s', cs.
    conjuncts; [reflexivity| |].
    + change s' with (fst (s', cs)). rewrite <- Hp. apply wf_process, Hwf.
    + change cs with (snd (s', cs)). rewrite <- Hp. apply process_in_bounds, Hwf.
  - destruct (transferCompletedCallback huart s) as [s' cs] eqn:Hp. exists s', cs.
    conjuncts; [reflexivity| |].
    + change s' with (fst (s', cs)). rewrite <- Hp.
      apply wf_transferCompletedCallback, Hwf.
    + unfold transferCompletedCallback in Hp.
      destruct (huart =? m_uart s); [|injection Hp as <- <-; constructor].
      change cs with (snd (s', cs)). rewrite <- Hp.
      apply (startTransfer_in_bounds (set_read_pos (m_new_read_pos s) s)).
      destruct Hwf. split; cbn; assumption.
Qed.

Lemma reached_uart huart hist s : reached huart hist s -> m_uart s = huart.
Proof.
  induction 1 as [|hist s ev s' cs _ IH Hty Hstep]; [reflexivity|].
  rewrite (step_uart s ev s' cs Hstep). exact IH.
Qed.

(** X10. From every state the initialized logger can reach, every
    operation returns: [enqueue] never stores outside [m_send_buffer]. The
    cursors stay inside the buffer, and every DMA request the operation
    makes is for the logger's own UART and for a non-empty range that lies
    inside [m_send_buffer]. *)
Theorem operations_stay_in_bounds huart hist s ev :
  reached huart hist s ->
  event_typed ev ->
  exists s' cs,
    step s ev = Some (s', cs) /\ wf s' /\
    Forall (dma_in_bounds huart) cs.
Proof.
  intros Hreach Hty.
  pose proof (reached_quiescent _ _ _ Hreach) as Hq.
  rewrite <- (reached_uart _ _ _ Hreach).
  apply step_in_bounds; [apply Hq|exact Hty].
Qed.

Lemma operations_stay_in_bounds_witness :
  reached 1 [idle_logger] one_byte_sending /\
  event_typed (EvEnqueue true (replicate 600 x41) 600) /\
  exists s' cs,
    step one_byte_sending (EvEnqueue true (replicate 600 x41) 600) =
      Some (s', cs) /\
    wf s' /\ Forall (dma_in_bounds 1) cs.
Proof.
  assert (Hreach : reached 1 [idle_logger] one_byte_sending).
  { apply (reached_step 1 [] idle_logger (EvEnqueue false [x42] 1)
             one_byte_sending
             [HAL_UART_Transmit_DMA 1 0 1; HAL_DMA_DISABLE_IT_HT 1]).
    - apply reached_init.
    - unfold event_typed, is_u16. lia.
    - vm_compute. reflexivity. }
  assert (Hty : event_typed (EvEnqueue true (replicate 600 x41) 600))
    by (unfold event_typed, is_u16; lia).
  split; [exact Hreach|]. split; [exact Hty|].
  exact (operations_stay_in_bounds 1 [idle_logger] one_byte_sending _ Hreach Hty).
Defined.

(** ** Queued bytes are never overwritten *)

(** X11. No operation changes a byte that is queued between [m_read_pos]
    and [m_write_pos]: a message is only ever copied into free space, so
    the DMA reads the same bytes whenever it reads them before its
    completion interrupt. *)
Theorem queued_bytes_stable s ev s' cs :
  quiescent s -> event_typed ev ->
  step s ev = Some (s', cs) ->
  forall j : nat,
    Z.of_nat j < SEND_BUFFER_SIZE ->
    ring_dist (m_read_pos s) (Z.of_nat j) <
      ring_dist (m_read_pos s) (m_write_pos s) ->
    m_send_buffer s' !! j = m_send_buffer s !! j.
Proof.
  intros Hq Hty Hstep j Hj Hqueued. pose proof Hq as [Hwf Hg Hbt Hidle].
  destruct ev as [in_isr str len|in_isr|huart]; cbn [step event_typed] in *.
  - destruct (decide (0 < len <= availableSpace s (m_write_pos s))) as [Hfit|Hno].
    + destruct (enqueue_reserved_state in_isr str len s Hwf Hfit)
        as (s2 & cs2 & Hrun2 & _ & Hb & _).
      rewrite Hstep in Hrun2. injection Hrun2 as <- <-. rewrite Hb.
      pose proof (availableSpace_ring s (m_write_pos s)
                    (wf_read_pos s Hwf) (wf_write_pos s Hwf)) as Hav.
      destruct Hwf as [Hr Hn Hw Hbl _ _].
      rewrite ring_copy_lookup; rewrite ?msg_bytes_length;
        try (unfold ring_dist, SEND_BUFFER_SIZE in *; lia).
      destruct (decide _) as [Hin|_]; [|reflexivity].
      unfold ring_dist, SEND_BUFFER_SIZE in *. lia.
    + unfold is_u16 in Hty.
      rewrite enqueue_missed in Hstep by (assumption || lia).
      injection Hstep as Hp.
      match type of Hp with
      | process _ ?x = _ => pose proof (process_fields in_isr x) as Hf
      end.
      rewrite Hp in Hf. cbn in Hf. destruct Hf as (_ & _ & -> & _). reflexivity.
  - injection Hstep as Hp. pose proof (process_fields in_isr s) as Hf.
    rewrite Hp in Hf. cbn in Hf. destruct Hf as (_ & _ & -> & _). reflexivity.
  - injection Hstep as Hp. unfold transferCompletedCallback in Hp.
    destruct (huart =? m_uart s).
    + pose proof (startTransfer_fields (set_read_pos (m_new_read_pos s) s)) as Hf.
      rewrite Hp in Hf. cbn in Hf. destruct Hf as (_ & _ & -> & _). reflexivity.
    + injection Hp as <- _. reflexivity.
Qed.

Lemma quiescent_tail_logger : quiescent tail_logger.
Proof.
  split; [exact wf_tail_logger|reflexivity| |reflexivity].
  vm_compute. discriminate.
Qed.

Lemma queued_bytes_stable_witness :
  quiescent tail_logger /\
  exists s' cs,
    step tail_logger (EvEnqueue true (replicate 50 x42) 50) = Some (s', cs) /\
    forall j : nat,
      Z.of_nat j < SEND_BUFFER_SIZE ->
      ring_dist (m_read_pos tail_logger) (Z.of_nat j) <
        ring_dist (m_read_pos tail_logger) (m_write_pos tail_logger) ->
      m_send_buffer s' !! j = m_send_buffer tail_logger !! j.
Proof.
  split; [exact quiescent_tail_logger|].
  eexists _, _. split; [vm_compute; reflexivity|].
  eapply (queued_bytes_stable tail_logger (EvEnqueue true (replicate 50 x42) 50)).
  - exact quiescent_tail_logger.
  - unfold event_typed, is_u16. lia.
  - vm_compute. reflexivity.
Defined.

(** ** Accepted and rejected messages *)

Lemma step_missed_count s ev s' cs :
  wf s -> event_typed ev ->
  step s ev = Some (s', cs) ->
  m_missed_count s' =
  to_u16 (m_missed_count s + (if event_rejected s ev then 1 else 0)).
Proof.
  intros Hwf Hty Hstep. pose proof (wf_missed_count s Hwf) as Hm.
  destruct ev as [in_isr str len|in_isr|huart];
    cbn [step event_typed event_rejected] in *.
  - destruct (decide (0 < len <= availableSpace s (m_write_pos s))) as [Hfit|Hno].
    + destruct (enqueue_reserved_state in_isr str len s Hwf Hfit)
        as (s2 & cs2 & Hrun2 & _ & _ & _ & _ & Hmc & _).
      rewrite Hstep in Hrun2. injection Hrun2 as <- <-. rewrite Hmc.
      destruct (Z.eqb_spec len 0); [lia|].
      destruct (Z.ltb_spec (availableSpace s (m_write_pos s)) len); [lia|].
      cbn [orb]. rewrite Z.add_0_r. symmetry. apply to_u16_id, Hm.
    + unfold is_u16 in Hty.
      rewrite enqueue_missed in Hstep by (assumption || lia).
      injection Hstep as Hp.
      match type of Hp with
      | process _ ?x = _ => pose proof (process_fields in_isr x) as Hf
      end.
      rewrite Hp in Hf. cbn in Hf. destruct Hf as (_ & _ & _ & -> & _).
      assert (Hrej : (len =? 0) || (availableSpace s (m_write_pos s) <? len) = true).
      { destruct (Z.eqb_spec len 0); [reflexivity|].
        destruct (Z.ltb_spec (availableSpace s (m_write_pos s)) len);
          [reflexivity|lia]. }
      rewrite Hrej. reflexivity.
  - injection Hstep as Hp. pose proof (process_fields in_isr s) as Hf.
    rewrite Hp in Hf. cbn in Hf. destruct Hf as (_ & _ & _ & -> & _).
    rewrite Z.add_0_r. symmetry. apply to_u16_id, Hm.
  - injection Hstep as Hp. unfold transferCompletedCallback in Hp.
    rewrite Z.add_0_r, to_u16_id by exact Hm.
    destruct (huart =? m_uart s).
    + pose proof (startTransfer_fields (set_read_pos (m_new_read_pos s) s)) as Hf.
      rewrite Hp in Hf. cbn in Hf. tauto.
    + injection Hp as <- _. reflexivity.
Qed.

Lemma run_typed evs : forall s,
  quiescent s ->
  Forall event_typed evs ->
  exists s' out,
    run s evs = Some (s', out) /\
    quiescent s' /\
    out ++ pending s' = pending s ++ accepted s evs /\
    m_missed_count s' = to_u16 (m_missed_count s + rejected s evs).
Proof.
  induction evs as [|ev rest IH]; intros s Hq Hty.
  - exists s, []. cbn [run accepted rejected app].
    rewrite List.app_nil_r, Z.add_0_r.
    conjuncts; try reflexivity; [exact Hq|].
    symmetry. apply to_u16_id, (wf_missed_count s (q_wf s Hq)).
  - inversion Hty as [|? ? Hev Hrest]; subst.
    destruct (step_quiescent s ev Hq Hev) as (s1 & cs & Hstep & Hq1 & _ & Hbytes).
    pose proof (step_missed_count s ev s1 cs (q_wf s Hq) Hev Hstep) as Hm1.
    destruct (IH s1 Hq1 Hrest) as (s2 & out & Hrun & Hq2 & Hout & Hm2).
    exists s2, (calls_bytes (m_send_buffer s1) cs ++ out).
    cbn [run accepted rejected]. rewrite Hstep. cbn [mbind option_bind].
    rewrite Hrun. cbn [mbind option_bind]. conjuncts; [reflexivity|exact Hq2| |].
    + rewrite <- List.app_assoc, Hout, !List.app_assoc, Hbytes. reflexivity.
    + rewrite Hm2, Hm1. unfold to_u16. lia.
Qed.

(** X12. Along every run from the initialized logger, whether or not the
    messages fit: the run returns, a message that does not fit leaves no
    byte behind, and the bytes handed to the DMA followed by the bytes
    still pending are exactly the messages that found room, in call order.
    After one [process()] from the main loop and the completion interrupts
    of the chained transfers, the DMA has been given exactly those
    messages. *)
Theorem accepted_messages_transmitted huart evs :
  Forall event_typed evs ->
  exists s out,
    run (fst (init huart logger0)) evs = Some (s, out) /\
    out ++ pending s = accepted (fst (init huart logger0)) evs /\
    exists s' out',
      run s (drain s) = Some (s', out') /\
      out ++ out' = accepted (fst (init huart logger0)) evs /\
      m_is_sending s' = false /\ m_read_pos s' = m_write_pos s'.
Proof.
  intros Hty.
  destruct (run_typed evs _ (quiescent_init huart) Hty)
    as (s & out & Hrun & Hq & Hout & _).
  exists s, out. conjuncts; [exact Hrun|exact Hout|].
  destruct (drain_empties s Hq) as (s' & out' & Hdrain & -> & Hidle & Hempty).
  exists s', (pending s). conjuncts; assumption.
Qed.

Lemma overload_events_typed :
  Forall event_typed
    [EvEnqueue true (replicate 255 x41) 255;
     EvEnqueue true (replicate 255 x42) 255;
     EvEnqueue true (replicate 100 x43) 100;
     EvEnqueue true [x44] 1].
Proof. repeat constructor; unfold is_u16; lia. Qed.

Lemma accepted_messages_transmitted_witness :
  exists s out,
    run (fst (init 1 logger0))
        [EvEnqueue true (replicate 255 x41) 255;
         EvEnqueue true (replicate 255 x42) 255;
         EvEnqueue true (replicate 100 x43) 100;
         EvEnqueue true [x44] 1] = Some (s, out) /\
    out ++ pending s =
      accepted (fst (init 1 logger0))
        [EvEnqueue true (replicate 255 x41) 255;
         EvEnqueue true (replicate 255 x42) 255;
         EvEnqueue true (replicate 100 x43) 100;
         EvEnqueue true [x44] 1] /\
    exists s' out',
      run s (drain s) = Some (s', out') /\
      out ++ out' =
        accepted (fst (init 1 logger0))
          [EvEnqueue true (replicate 255 x41) 255;
           EvEnqueue true (replicate 255 x42) 255;
           EvEnqueue true (replicate 100 x43) 100;
           EvEnqueue true [x44] 1] /\
      m_is_sending s' = false /\ m_read_pos s' = m_write_pos s'.
Proof.
  exact (accepted_messages_transmitted 1 _ overload_events_typed).
Defined.

(** The overloaded run, evaluated: the 100-byte message is dropped whole,
    the one-byte message after it is accepted. *)
Example overload_accepted :
  accepted idle_logger
    [EvEnqueue true (replicate 255 x41) 255;
     EvEnqueue true (replicate 255 x42) 255;
     EvEnqueue true (replicate 100 x43) 100;
     EvEnqueue true [x44] 1] =
  replicate 255 x41 ++ replicate 255 x42 ++ [x44].
Proof. vm_compute. reflexivity. Qed.

(** X13. After every run from the initialized logger [getMissedCount()]
    is the number of rejected [enqueue] calls, those of length zero and
    those longer than the available space, modulo 2^16. *)
Theorem missed_count_counts_rejections huart evs :
  Forall event_typed evs ->
  exists s out,
    run (fst (init huart logger0)) evs = Some (s, out) /\
    getMissedCount s = rejected (fst (init huart logger0)) evs mod 65536.
Proof.
  intros Hty.
  destruct (run_typed evs _ (quiescent_init huart) Hty)
    as (s & out & Hrun & _ & _ & Hm).
  exists s, out. split; [exact Hrun|].
  unfold getMissedCount. rewrite Hm. reflexivity.
Qed.

Lemma missed_count_counts_rejections_witness :
  exists s out,
    run (fst (init 1 logger0))
        [EvEnqueue true (replicate 255 x41) 255;
         EvEnqueue true (replicate 255 x42) 255;
         EvEnqueue true (replicate 100 x43) 100;
         EvEnqueue true [x44] 1] = Some (s, out) /\
    getMissedCount s =
      rejected (fst (init 1 logger0))
        [EvEnqueue true (replicate 255 x41) 255;
         EvEnqueue true (replicate 255 x42) 255;
         EvEnqueue true (replicate 100 x43) 100;
         EvEnqueue true [x44] 1] mod 65536.
Proof.
  exact (missed_count_counts_rejections 1 _ overload_events_typed).
Defined.

(** ** Transfers *)

Lemma enqueue_process_form in_isr str len s s' cs :
  enqueue in_isr str len s = Some (s', cs) ->
  exists x,
    process in_isr x = (s', cs) /\
    m_is_sending x = m_is_sending s /\ m_uart x = m_uart s.
Proof.
  unfold enqueue.
  destruct (negb _).
  - destruct (enqueue_copy _ _ _ _ _) as [buf|]; cbn [mbind option_bind];
      [|discriminate].
    intros [= Hp]. eexists. split; [exact Hp|]. split; reflexivity.
  - cbn [mbind option_bind]. intros [= Hp].
    eexists. split; [exact Hp|]. split; reflexivity.
Qed.

Lemma startTransfer_calls_form s :
  snd (startTransfer s) = [] \/
  exists p n,
    snd (startTransfer s) =
      [HAL_UART_Transmit_DMA (m_uart s) p n; HAL_DMA_DISABLE_IT_HT (m_uart s)] /\
    m_is_sending (fst (startTransfer s)) = true.
Proof.
  unfold startTransfer. destruct (negb _ && _); [|left; reflexivity].
  right. cbn [m_read_pos m_uart set_is_sending set_new_read_pos].
  destruct (m_read_pos s <? m_write_pos s); eexists _, _; split; reflexivity.
Qed.

Lemma process_calls_form in_isr s :
  (m_is_sending s || in_isr = true -> snd (process in_isr s) = []) /\
  (snd (process in_isr s) = [] \/
   exists p n,
     snd (process in_isr s) =
       [HAL_UART_Transmit_DMA (m_uart s) p n; HAL_DMA_DISABLE_IT_HT (m_uart s)] /\
     m_is_sending (fst (process in_isr s)) = true).
Proof.
  unfold process. destruct (m_is_sending s || in_isr).
  - split; [reflexivity|left; reflexivity].
  - split; [discriminate|apply startTransfer_calls_form].
Qed.

(** X14. Every operation makes either no HAL call at all, or exactly one
    DMA transmit request followed by the disabling of the half-transfer
    interrupt, and then [m_is_sending] is set. [enqueue] and [process] make
    no HAL call while [m_is_sending] is set or when called from an
    interrupt handler: a second request is only ever issued by the
    completion interrupt of the first. *)
Theorem one_request_at_a_time s ev s' cs :
  step s ev = Some (s', cs) ->
  (cs = [] \/
   exists p n,
     cs = [HAL_UART_Transmit_DMA (m_uart s) p n;
           HAL_DMA_DISABLE_IT_HT (m_uart s)] /\
     m_is_sending s' = true) /\
  match ev with
  | EvEnqueue in_isr _ _ | EvProcess in_isr =>
      m_is_sending s = true \/ in_isr = true -> cs = []
  | EvTxComplete huart => huart <> m_uart s -> cs = [] /\ s' = s
  end.
Proof.
  intros Hstep. destruct ev as [in_isr str len|in_isr|huart]; cbn [step] in Hstep.
  - destruct (enqueue_process_form in_isr str len s s' cs Hstep)
      as (x & Hp & Hs & Hu).
    destruct (process_calls_form in_isr x) as [Hidle Hform].
    rewrite Hp, Hs, Hu in *. cbn [fst snd] in *. split; [exact Hform|].
    intros [H|H]; apply Hidle; rewrite H; [reflexivity|apply orb_true_r].
  - injection Hstep as Hp.
    destruct (process_calls_form in_isr s) as [Hidle Hform].
    rewrite Hp in *. cbn [fst snd] in *. split; [exact Hform|].
    intros [H|H]; apply Hidle; rewrite H; [reflexivity|apply orb_true_r].
  - injection Hstep as Hp. unfold transferCompletedCallback in Hp.
    destruct (Z.eqb_spec huart (m_uart s)) as [Heq|Hne].
    + pose proof (startTransfer_calls_form (set_read_pos (m_new_read_pos s) s)) as Hform.
      rewrite Hp in Hform. cbn [fst snd m_uart set_read_pos] in Hform.
      split; [exact Hform|]. intros Hbad. contradiction.
    + injection Hp as <- <-. split; [left; reflexivity|]. auto.
Qed.

Lemma one_request_at_a_time_witness :
  step one_byte_sending (EvEnqueue false [x43; x44] 2) =
    Some (set_send_buffer (x42 :: x43 :: x44 :: replicate 509 x00)
            (set_write_pos 3 one_byte_sending), []) /\
  (m_is_sending one_byte_sending = true \/ false = true -> @nil HalCall = []).
Proof.
  assert (Hstep : step one_byte_sending (EvEnqueue false [x43; x44] 2) =
                  Some (set_send_buffer (x42 :: x43 :: x44 :: replicate 509 x00)
                          (set_write_pos 3 one_byte_sending), []))
    by (vm_compute; reflexivity).
  split; [exact Hstep|].
  exact (proj2 (one_request_at_a_time _ _ _ _ Hstep)).
Defined.

(** X15. Queued data that wraps around the end of storage is sent in two
    chained transfers without any further trigger: [process()] requests
    the bytes from [m_read_pos] to the end of storage, the completion
    interrupt requests the bytes from index 0 to [m_write_pos] (nothing if
    [m_write_pos] is 0), and the next completion interrupt leaves the
    logger idle and empty. *)
Theorem wrapped_queue_two_transfers s :
  quiescent s ->
  m_is_sending s = false ->
  m_write_pos s < m_read_pos s ->
  exists s1 s2 s3,
    process false s =
      (s1, [HAL_UART_Transmit_DMA (m_uart s) (m_read_pos s)
                                  (SEND_BUFFER_SIZE - m_read_pos s);
            HAL_DMA_DISABLE_IT_HT (m_uart s)]) /\
    transferCompletedCallback (m_uart s) s1 =
      (s2, if m_write_pos s =? 0 then []
           else [HAL_UART_Transmit_DMA (m_uart s) 0 (m_write_pos s);
                 HAL_DMA_DISABLE_IT_HT (m_uart s)]) /\
    transferCompletedCallback (m_uart s) s2 = (s3, []) /\
    m_is_sending s3 = false /\
    m_read_pos s3 = m_write_pos s /\ m_write_pos s3 = m_write_pos s.
Proof.
  intros [Hwf Hg Hbt Hidle] Hs Hwrap. destruct Hwf as [Hr Hn Hw _ _ _].
  assert (Hsz : to_u16 (SEND_BUFFER_SIZE - m_read_pos s) =
                SEND_BUFFER_SIZE - m_read_pos s)
    by (apply to_u16_id; unfold is_u16, SEND_BUFFER_SIZE in *; lia).
  assert (Hsz2 : to_u16 (m_write_pos s - 0) = m_write_pos s)
    by (unfold to_u16, SEND_BUFFER_SIZE in *; lia).
  assert (Hp : process false s =
               (set_new_read_pos 0 (set_is_sending true s),
                [HAL_UART_Transmit_DMA (m_uart s) (m_read_pos s)
                                       (SEND_BUFFER_SIZE - m_read_pos s);
                 HAL_DMA_DISABLE_IT_HT (m_uart s)])).
  { unfold process. rewrite Hs. cbn [orb]. unfold startTransfer. rewrite Hg.
    destruct (Z.eqb_spec (m_write_pos s) (m_read_pos s)); [lia|].
    cbn [negb andb Z.eqb m_read_pos m_uart set_is_sending set_new_read_pos].
    destruct (Z.ltb_spec (m_read_pos s) (m_write_pos s)); [lia|].
    rewrite Hsz. reflexivity. }
  destruct (Z.eqb_spec (m_write_pos s) 0) as [Hz|Hnz].
  - eexists _, _, _. split; [exact Hp|].
    unfold transferCompletedCallback, startTransfer.
    cbn [m_write_pos m_read_pos m_new_read_pos m_enqueue_guard m_uart
         m_is_sending set_read_pos set_is_sending set_new_read_pos].
    rewrite Z.eqb_refl, Hg, Hz. cbn [Z.eqb negb andb].
    split; [reflexivity|].
    cbn [m_write_pos m_read_pos m_new_read_pos m_enqueue_guard m_uart
         m_is_sending set_read_pos set_is_sending set_new_read_pos].
    rewrite Z.eqb_refl, Hz. cbn [Z.eqb negb andb].
    split; [reflexivity|]. conjuncts; cbn; congruence.
  - eexists _, _, _. split; [exact Hp|].
    unfold transferCompletedCallback, startTransfer.
    cbn [m_write_pos m_read_pos m_new_read_pos m_enqueue_guard m_uart
         m_is_sending set_read_pos set_is_sending set_new_read_pos].
    rewrite Z.eqb_refl, Hg.
    destruct (Z.eqb_spec (m_write_pos s) 0) as [|_]; [contradiction|].
    cbn [Z.eqb negb andb].
    destruct (Z.ltb_spec 0 (m_write_pos s)); [|lia].
    rewrite Hsz2. split; [reflexivity|].
    cbn [m_write_pos m_read_pos m_new_read_pos m_enqueue_guard m_uart
         m_is_sending set_read_pos set_is_sending set_new_read_pos].
    rewrite !Z.eqb_refl. cbn [negb andb].
    conjuncts; reflexivity.
Qed.

Lemma quiescent_wrapped_logger : quiescent wrapped_logger.
Proof.
  split; [exact wf_wrapped_logger|reflexivity| |reflexivity].
  vm_compute. discriminate.
Qed.

Lemma wrapped_queue_two_transfers_witness :
  quiescent wrapped_logger /\
  exists s1 s2 s3,
    process false wrapped_logger =
      (s1, [HAL_UART_Transmit_DMA 1 500 12; HAL_DMA_DISABLE_IT_HT 1]) /\
    transferCompletedCallback 1 s1 =
      (s2, [HAL_UART_Transmit_DMA 1 0 3; HAL_DMA_DISABLE_IT_HT 1]) /\
    transferCompletedCallback 1 s2 = (s3, []) /\
    m_is_sending s3 = false /\
    m_read_pos s3 = m_write_pos wrapped_logger /\
    m_write_pos s3 = m_write_pos wrapped_logger.
Proof.
  split; [exact quiescent_wrapped_logger|].
  assert (Hwrap : m_write_pos wrapped_logger < m_read_pos wrapped_logger)
    by (cbn; lia).
  exact (wrapped_queue_two_transfers wrapped_logger quiescent_wrapped_logger
           eq_refl Hwrap).
Defined.
